(** * Draco point attributes: storage, point-to-value mapping, deduplication
      and structural fingerprint

    A shallow embedding of [point_cloud/point_attribute.h].  The class
    [PointAttribute] becomes a record, its inline member functions become
    functions on that record, and whatever the header only uses from other
    headers (index types, [DataBuffer], [GeometryAttribute], the hash
    utilities, [DCHECK]) is gathered in two interfaces, [Collaborators] and
    [HashUtils], over which every definition and theorem is generic. *)

From stdpp Require Import base decidable option numbers list list_numbers
  countable gmap fin_sets.

Local Open Scope Z_scope.

(** stdpp's cardinality of a finite set or map; the name [size] itself is the
    accessor [PointAttribute::size]. *)
Local Abbreviation card := stdpp.base.size.

(** ** What the header takes from other headers *)

(** The declarations [point_attribute.h] includes but does not make:
    - [DataType] / [DataTypeLength]: the component type enumeration of
      [geometry_attribute.h] and the byte size of one component;
    - [dedup_supported]: the component types the deduplication dispatch has
      a typed path for;
    - [value_type_bits]: the width of the unsigned integer
      [AttributeValueIndex::ValueType];
    - [size_t_bits]: the width of [size_t];
    - [kInvalidAttributeValueIndex]: the reserved "unassigned" index;
    - [index_object_repr] / [sizeof_index]: the bytes one
      [AttributeValueIndex] occupies in memory, as [FingerprintString] sees
      them through [reinterpret_cast<const char *>];
    - [dcheck_on]: whether [DCHECK] is compiled in (debug build). *)
Class Collaborators := {
  DataType : Type;
  DataType_eq_dec :: EqDecision DataType;
  DataTypeLength : DataType → Z;
  dedup_supported : DataType → bool;
  value_type_bits : Z;
  size_t_bits : Z;
  kInvalidAttributeValueIndex : Z;
  index_object_repr : Z → list Z;
  sizeof_index : nat;
  dcheck_on : bool;
  index_object_repr_length v : length (index_object_repr v) = sizeof_index;
  value_type_fits_size_t : 0 < value_type_bits ≤ size_t_bits;
}.

(** ** Outcomes of a member function

    [Done x]: the call returns [x].  [Fatal]: a [DCHECK] failed, the process
    is aborted (debug builds).  [Undefined]: the call left defined behaviour
    (null buffer, index outside a vector or a buffer). *)
Inductive Outcome (A : Type) : Type :=
  | Done (x : A)
  | Fatal
  | Undefined.
Arguments Done {A} x.
Arguments Fatal {A}.
Arguments Undefined {A}.

#[global] Instance Outcome_ret : MRet Outcome := λ A x, Done x.
#[global] Instance Outcome_bind : MBind Outcome := λ A B f m,
  match m with
  | Done x => f x
  | Fatal => Fatal
  | Undefined => Undefined
  end.

(** The argument of the function template [HashCombine(T value, size_t hash)]
    at the four types the hasher instantiates it with. *)
Inductive HashArg : Type :=
  | HashBool (b : bool)
  | HashValueType (v : Z)
  | HashSizeT (n : Z)
  | HashU64 (h : Z).

Section Model.
Context `{Collaborators}.

(** [static_cast<size_t>] and the conversion to
    [AttributeValueIndex::ValueType]: both unsigned, both wrap. *)
Definition to_size_t (n : Z) : Z := n mod 2 ^ size_t_bits.
Definition to_value_type (n : Z) : Z := n mod 2 ^ value_type_bits.

(** Modelled from the spec: the base attribute descriptor of
    [geometry_attribute.h], which is not part of this header: a fixed
    component type and component count. *)
Record GeometryAttribute : Type := {
  component_type : DataType;
  component_count : Z;
}.

(** Modelled from the spec: [GeometryAttribute::byte_stride()], the derived
    [component_count × sizeof(component_type)]. *)
Definition descriptor_byte_stride (g : GeometryAttribute) : Z :=
  component_count g * DataTypeLength (component_type g).

(** [class PointAttribute : public GeometryAttribute].  The buffer is the
    [unique_ptr<DataBuffer>]: [None] is [nullptr], [Some bytes] the bytes
    [data()] .. [data() + data_size()].  [indices_map_] is the
    [IndexTypeVector<PointIndex, AttributeValueIndex>], a [std::vector]
    indexed by point. *)
Record PointAttribute : Type := {
  descriptor : GeometryAttribute;
  attribute_buffer_ : option (list Z);
  indices_map_ : list Z;
  num_unique_entries_ : Z;
  identity_mapping_ : bool;
}.

Definition byte_stride (a : PointAttribute) : Z :=
  descriptor_byte_stride (descriptor a).

(** *** Vector and buffer primitives *)

(** [v[i]] on an [IndexTypeVector]: no bounds check, so an index outside the
    vector is undefined behaviour. *)
Definition vector_at (v : list Z) (i : Z) : Outcome Z :=
  if bool_decide (0 ≤ i) then
    match v !! Z.to_nat i with
    | Some x => Done x
    | None => Undefined
    end
  else Undefined.

(** [v[i] = x]. *)
Definition vector_assign (v : list Z) (i x : Z) : Outcome (list Z) :=
  if bool_decide (0 ≤ i < Z.of_nat (length v))
  then Done (<[Z.to_nat i := x]> v)
  else Undefined.

(** Modelled from the spec: [DataBuffer::Write(byte_pos, data, size)], a
    positioned write of [size] bytes; the caller guarantees the range lies
    inside the buffer and that [data] covers [size] bytes. *)
Definition DataBuffer_Write (buf : list Z) (byte_pos : Z) (data : list Z)
    (data_size : Z) : Outcome (list Z) :=
  if bool_decide (0 ≤ byte_pos ∧ 0 ≤ data_size
                  ∧ byte_pos + data_size ≤ Z.of_nat (length buf)
                  ∧ data_size ≤ Z.of_nat (length data))
  then Done (take (Z.to_nat byte_pos) buf
             ++ take (Z.to_nat data_size) data
             ++ drop (Z.to_nat (byte_pos + data_size)) buf)
  else Undefined.

(** Modelled from the spec: [DataBuffer::Read], the [byte_stride] bytes of the
    record at [index × stride]. *)
Definition DataBuffer_Read (buf : list Z) (byte_pos : Z) (data_size : Z)
    : Outcome (list Z) :=
  if bool_decide (0 ≤ byte_pos ∧ 0 ≤ data_size
                  ∧ byte_pos + data_size ≤ Z.of_nat (length buf))
  then Done (take (Z.to_nat data_size) (drop (Z.to_nat byte_pos) buf))
  else Undefined.

(** [DCHECK(c)]: aborts in a debug build when [c] is false, and is compiled
    out otherwise. *)
Definition DCHECK (c : bool) : Outcome unit :=
  if dcheck_on && negb c then Fatal else Done ().

(** *** The inline member functions of the header *)

(** [size_t size() const { return num_unique_entries_; }] *)
Definition size (a : PointAttribute) : Z :=
  to_size_t (num_unique_entries_ a).

(** [mapped_index(point_index)] *)
Definition mapped_index (a : PointAttribute) (point_index : Z) : Outcome Z :=
  if identity_mapping_ a then Done point_index
  else vector_at (indices_map_ a) point_index.

Definition buffer (a : PointAttribute) : option (list Z) :=
  attribute_buffer_ a.

Definition is_mapping_identity (a : PointAttribute) : bool :=
  identity_mapping_ a.

(** [Resize(size_t new_num_unique_entries)]: one assignment, narrowing the
    [size_t] argument to the value type of the field. *)
Definition Resize (a : PointAttribute) (new_num_unique_entries : Z)
    : PointAttribute :=
  {| descriptor := descriptor a;
     attribute_buffer_ := attribute_buffer_ a;
     indices_map_ := indices_map_ a;
     num_unique_entries_ := to_value_type new_num_unique_entries;
     identity_mapping_ := identity_mapping_ a |}.

(** [SetIdentityMapping()] *)
Definition SetIdentityMapping (a : PointAttribute) : PointAttribute :=
  {| descriptor := descriptor a;
     attribute_buffer_ := attribute_buffer_ a;
     indices_map_ := [];
     num_unique_entries_ := num_unique_entries_ a;
     identity_mapping_ := true |}.

(** [SetExplicitMapping(int64_t num_points)]:
    [indices_map_.resize(num_points, kInvalidAttributeValueIndex)] is
    [std::vector::resize]: it keeps the first [num_points] entries that are
    already there and appends the fill value for the rest; [num_points] is
    converted to [size_t] on the way. *)
Definition SetExplicitMapping (a : PointAttribute) (num_points : Z)
    : PointAttribute :=
  {| descriptor := descriptor a;
     attribute_buffer_ := attribute_buffer_ a;
     indices_map_ :=
       resize (Z.to_nat (to_size_t num_points)) kInvalidAttributeValueIndex
              (indices_map_ a);
     num_unique_entries_ := num_unique_entries_ a;
     identity_mapping_ := false |}.

(** [SetPointMapEntry(point_index, entry_index)] *)
Definition SetPointMapEntry (a : PointAttribute) (point_index entry_index : Z)
    : Outcome PointAttribute :=
  _ ← DCHECK (negb (identity_mapping_ a));
  m ← vector_assign (indices_map_ a) point_index entry_index;
  Done {| descriptor := descriptor a;
          attribute_buffer_ := attribute_buffer_ a;
          indices_map_ := m;
          num_unique_entries_ := num_unique_entries_ a;
          identity_mapping_ := identity_mapping_ a |}.

(** [SetAttributeValue(entry_index, value)]: writes [byte_stride()] bytes of
    [value] at [entry_index * byte_stride()] through [buffer()]. *)
Definition SetAttributeValue (a : PointAttribute) (entry_index : Z)
    (value : list Z) : Outcome PointAttribute :=
  match buffer a with
  | None => Undefined
  | Some buf =>
      let byte_pos := entry_index * byte_stride a in
      buf' ← DataBuffer_Write buf byte_pos value (byte_stride a);
      Done {| descriptor := descriptor a;
              attribute_buffer_ := Some buf';
              indices_map_ := indices_map_ a;
              num_unique_entries_ := num_unique_entries_ a;
              identity_mapping_ := identity_mapping_ a |}
  end.

(** Modelled from the spec: [GeometryAttribute::GetValue(index, out)], which
    copies out the record stored at [index × byte_stride]. *)
Definition GetValue (a : PointAttribute) (att_index : Z) : Outcome (list Z) :=
  match buffer a with
  | None => Undefined
  | Some buf =>
      DataBuffer_Read buf (att_index * byte_stride a) (byte_stride a)
  end.

(** [GetMappedValue(point_index, out_data)] *)
Definition GetMappedValue (a : PointAttribute) (point_index : Z)
    : Outcome (list Z) :=
  v ← mapped_index a point_index;
  GetValue a v.

End Model.

(** Attributes live at addresses, and the [in_att] of a call may be the very
    object the method is called on. *)
Abbreviation Store := (gmap nat PointAttribute).

(** ** The hash utilities of [core/hash_utils.h] and the base hasher

    [GeometryAttributeHasher] fingerprints the base descriptor;
    [HashCombine(value, hash)] mixes one value into a running hash;
    [FingerprintString] fingerprints a run of bytes.  Their bodies are in
    other files, so the hasher below is generic in them. *)
Class HashUtils `{Collaborators} := {
  GeometryAttributeHasher : GeometryAttribute → Z;
  HashCombine : HashArg → Z → Z;
  FingerprintBytes : list Z → Z;
}.

Section Hasher.
Context `{HashUtils}.

(** [FingerprintString(s, len)]: the fingerprint of the [len] bytes that
    start at [s]. *)
Definition FingerprintString (s : list Z) (len : Z) : Z :=
  FingerprintBytes (take (Z.to_nat len) s).

(** [indices_map_.size()] and [indices_map_.data()]: the number of entries,
    and the memory the entries occupy, one object representation after the
    other. *)
Definition vector_size (v : list Z) : Z := Z.of_nat (length v).
Definition vector_data (v : list Z) : list Z :=
  flat_map index_object_repr v.

(** [DataBuffer::data_size()] *)
Definition data_size (buf : list Z) : Z := Z.of_nat (length buf).

(** [PointAttributeHasher::operator()] *)
Definition PointAttributeHasher (attribute : PointAttribute) : Z :=
  let hash := GeometryAttributeHasher (descriptor attribute) in
  let hash := HashCombine (HashBool (identity_mapping_ attribute)) hash in
  let hash :=
    HashCombine (HashValueType (num_unique_entries_ attribute)) hash in
  let hash :=
    HashCombine (HashSizeT (vector_size (indices_map_ attribute))) hash in
  let hash :=
    if bool_decide (vector_size (indices_map_ attribute) > 0) then
      let indices_hash :=
        FingerprintString (vector_data (indices_map_ attribute))
                          (vector_size (indices_map_ attribute)) in
      HashCombine (HashU64 indices_hash) hash
    else hash in
  let hash :=
    match attribute_buffer_ attribute with
    | Some buf =>
        let buffer_hash := FingerprintString buf (data_size buf) in
        HashCombine (HashU64 buffer_hash) hash
    | None => hash
    end in
  hash.

End Hasher.

(** ** Member functions the header only declares

    [PointAttribute(att)], [Reset] and [DeduplicateValues] are defined in the
    implementation file; they are modelled here from the specification. *)
Section Declared.
Context `{Collaborators}.

(** Modelled from the spec: the constructors, which are declared in the header
    and defined elsewhere: "storage is created empty": no buffer, no table, no
    entry.  The spec leaves the initial mapping mode open, so it is an
    argument. *)
Definition construct (att : GeometryAttribute) (identity : bool)
    : PointAttribute :=
  {| descriptor := att;
     attribute_buffer_ := None;
     indices_map_ := [];
     num_unique_entries_ := 0;
     identity_mapping_ := identity |}.

(** Modelled from the spec: [Reset(num_attribute_values)], declared in the
    header and defined elsewhere: "(re)allocates the Value Buffer to hold
    [num_values] records, discards any prior mapping, sets
    [unique_entry_count = num_values], and defaults to identity mode".  The
    bytes of the new buffer are unspecified; the model zero-fills them. *)
Definition Reset (a : PointAttribute) (num_attribute_values : Z)
    : PointAttribute :=
  {| descriptor := descriptor a;
     attribute_buffer_ :=
       Some (replicate (Z.to_nat (num_attribute_values * byte_stride a)) 0);
     indices_map_ := [];
     num_unique_entries_ := to_value_type num_attribute_values;
     identity_mapping_ := true |}.

(** Modelled from the spec: the number of points of a source attribute: the
    table length in explicit mode, the number of values in identity mode. *)
Definition point_count (a : PointAttribute) : Z :=
  if identity_mapping_ a then num_unique_entries_ a
  else Z.of_nat (length (indices_map_ a)).

(** Modelled from the spec: step 2a of the deduplication algorithm: "resolve
    the source record address: [in_att.mapped_index(p) + offset], read its
    [byte_stride] bytes". *)
Definition read_source (in_att : PointAttribute) (in_att_offset p : Z)
    : Outcome (list Z) :=
  v ← mapped_index in_att p;
  GetValue in_att (v + in_att_offset).

(** The state of the deduplication loop: the "seen" table from byte content
    to value index, the running [next_unique], the staging storage that
    receives the compacted records, and the mapping built so far (one entry
    per point already processed). *)
Record DedupState : Type := {
  seen : gmap (list Z) Z;
  next_unique : Z;
  staging : PointAttribute;
  new_map : list Z;
}.

(** Modelled from the spec: steps 2b to 2d for one record. *)
Definition dedup_absorb (s : DedupState) (content : list Z)
    : Outcome DedupState :=
  match seen s !! content with
  | Some existing =>
      Done {| seen := seen s;
              next_unique := next_unique s;
              staging := staging s;
              new_map := new_map s ++ [existing] |}
  | None =>
      let new_index := next_unique s in
      st ← SetAttributeValue (staging s) new_index content;
      Done {| seen := <[content := new_index]> (seen s);
              next_unique := new_index + 1;
              staging := st;
              new_map := new_map s ++ [new_index] |}
  end.

Definition dedup_step (in_att : PointAttribute) (in_att_offset : Z)
    (s : DedupState) (p : Z) : Outcome DedupState :=
  content ← read_source in_att in_att_offset p;
  dedup_absorb s content.

(** Modelled from the spec: step 2, "for each point [p] in increasing order". *)
Fixpoint dedup_loop (in_att : PointAttribute) (in_att_offset : Z)
    (points : list Z) (s : DedupState) : Outcome DedupState :=
  match points with
  | [] => Done s
  | p :: rest =>
      s' ← dedup_step in_att in_att_offset s p;
      dedup_loop in_att in_att_offset rest s'
  end.

(** The contents the loop reads, point by point. *)
Fixpoint read_all (in_att : PointAttribute) (in_att_offset : Z)
    (points : list Z) : Outcome (list (list Z)) :=
  match points with
  | [] => Done []
  | p :: rest =>
      content ← read_source in_att in_att_offset p;
      contents ← read_all in_att in_att_offset rest;
      Done (content :: contents)
  end.


(** Steps 2b to 2d over a list of contents already read. *)
Fixpoint absorb_all (contents : list (list Z)) (s : DedupState)
    : Outcome DedupState :=
  match contents with
  | [] => Done s
  | content :: rest =>
      s' ← dedup_absorb s content;
      absorb_all rest s'
  end.

(** The number of distinct contents in a list. *)
Definition distinct_count (contents : list (list Z)) : Z :=
  Z.of_nat (card (list_to_set contents : gset (list Z))).

(** Modelled from the spec: the failure test: "unsupported or mismatched
    component type or count between [this] and [in_att]". *)
Definition dedup_rejects (this in_att : PointAttribute) : bool :=
  negb (dedup_supported (component_type (descriptor in_att)))
  || negb (bool_decide (component_type (descriptor in_att)
                        = component_type (descriptor this)))
  || negb (bool_decide (component_count (descriptor in_att)
                        = component_count (descriptor this))).

Definition dedup_init (this : PointAttribute) : DedupState :=
  {| seen := ∅; next_unique := 0; staging := this; new_map := [] |}.

(** Step 3: the count and the explicit mapping are installed together with
    the staged buffer once the loop is over. *)
Definition dedup_install (this : PointAttribute) (s : DedupState)
    : PointAttribute :=
  {| descriptor := descriptor this;
     attribute_buffer_ := attribute_buffer_ (staging s);
     indices_map_ := new_map s;
     num_unique_entries_ := next_unique s;
     identity_mapping_ := false |}.

(** Modelled from the spec: [DeduplicateValues(in_att, in_att_offset)],
    declared in the header ("Returns -1 if the deduplication failed") and
    defined elsewhere.  The compacted records go to a staging copy of the
    destination and are swapped in at the end, the implementation the spec
    recommends; the source is read as it was when the call began.  Contents
    are compared byte for byte, as in the generic path; the typed comparison
    of floating-point components is outside this model.  The result is the
    returned value and the destination after the call. *)
Definition DeduplicateValues (this in_att : PointAttribute)
    (in_att_offset : Z) : Outcome (Z * PointAttribute) :=
  if dedup_rejects this in_att then Done (-1, this)
  else
    s ← dedup_loop in_att in_att_offset
                   (seqZ 0 (point_count in_att)) (dedup_init this);
    Done (next_unique s, dedup_install this s).

(** *** The call on objects of a store

    [in_att] is passed by reference and "can be equal to [this]", so the call
    is also modelled on a store of attributes by address.  Nothing is
    snapshotted: every source read goes through the store as it is at that
    moment, and every record write goes to an object of the store, so a
    write to the object being read is seen by the reads that follow. *)

(** The loop's own variables; the records are in the store. *)
Record DedupCursor : Type := {
  cur_seen : gmap (list Z) Z;
  cur_next : Z;
  cur_map : list Z;
}.

Definition cursor_init : DedupCursor :=
  {| cur_seen := ∅; cur_next := 0; cur_map := [] |}.

(** Dereferencing an address; nothing lives at a dangling one. *)
Definition load (st : Store) (addr : nat) : Outcome PointAttribute :=
  match st !! addr with
  | Some a => Done a
  | None => Undefined
  end.

(** Modelled from the spec: steps 2a to 2d for point [p], on the store.  The
    source is the object now at [in_addr]; a new record is written into the
    object at [out_addr]. *)
Definition dedup_step_at (in_addr out_addr : nat) (in_att_offset : Z)
    (c : DedupCursor) (st : Store) (p : Z) : Outcome (DedupCursor * Store) :=
  in_att ← load st in_addr;
  content ← read_source in_att in_att_offset p;
  match cur_seen c !! content with
  | Some existing =>
      Done ({| cur_seen := cur_seen c;
               cur_next := cur_next c;
               cur_map := cur_map c ++ [existing] |}, st)
  | None =>
      let new_index := cur_next c in
      out ← load st out_addr;
      out' ← SetAttributeValue out new_index content;
      Done ({| cur_seen := <[content := new_index]> (cur_seen c);
               cur_next := new_index + 1;
               cur_map := cur_map c ++ [new_index] |},
            <[out_addr := out']> st)
  end.

Fixpoint dedup_loop_at (in_addr out_addr : nat) (in_att_offset : Z)
    (points : list Z) (c : DedupCursor) (st : Store)
    : Outcome (DedupCursor * Store) :=
  match points with
  | [] => Done (c, st)
  | p :: rest =>
      '(c', st') ← dedup_step_at in_addr out_addr in_att_offset c st p;
      dedup_loop_at in_addr out_addr in_att_offset rest c' st'
  end.

(** Step 3 on the store: [this] gets the compacted buffer of [out], the new
    mapping and the new count. *)
Definition install_at (this out : PointAttribute) (c : DedupCursor)
    : PointAttribute :=
  {| descriptor := descriptor this;
     attribute_buffer_ := attribute_buffer_ out;
     indices_map_ := cur_map c;
     num_unique_entries_ := cur_next c;
     identity_mapping_ := false |}.

(** Modelled from the spec: [this->DeduplicateValues(in_att, in_att_offset)]
    with the staging-buffer discipline the spec requires when [in_att] is
    [this]: the compacted records are written to a staging copy of [this] at
    an address nothing else uses, and swapped in when the loop is over. *)
Definition DeduplicateValues_at (st : Store) (this_addr in_addr : nat)
    (in_att_offset : Z) : Outcome (Z * Store) :=
  this ← load st this_addr;
  in_att ← load st in_addr;
  if dedup_rejects this in_att then Done (-1, st)
  else
    let staging_addr := fresh (dom st) in
    '(c, st') ← dedup_loop_at in_addr staging_addr in_att_offset
                              (seqZ 0 (point_count in_att)) cursor_init
                              (<[staging_addr := this]> st);
    staged ← load st' staging_addr;
    Done (cur_next c,
          <[this_addr := install_at this staged c]> (delete staging_addr st')).

(** Modelled from the spec: the same call compacting in place, option (ii):
    the records are written straight into the object at [this_addr]. *)
Definition DeduplicateValues_in_place_at (st : Store) (this_addr in_addr : nat)
    (in_att_offset : Z) : Outcome (Z * Store) :=
  this ← load st this_addr;
  in_att ← load st in_addr;
  if dedup_rejects this in_att then Done (-1, st)
  else
    '(c, st') ← dedup_loop_at in_addr this_addr in_att_offset
                              (seqZ 0 (point_count in_att)) cursor_init st;
    live ← load st' this_addr;
    Done (cur_next c, <[this_addr := install_at this live c]> st').

(** A cursor together with the object the records go to, as a state of the
    loop on values, and back. *)
Definition cursor_state (c : DedupCursor) (out : PointAttribute)
    : DedupState :=
  {| seen := cur_seen c;
     next_unique := cur_next c;
     staging := out;
     new_map := cur_map c |}.

Definition state_cursor (s : DedupState) : DedupCursor :=
  {| cur_seen := seen s; cur_next := next_unique s; cur_map := new_map s |}.

(** What a caller observes of a deduplication: the returned count and the
    destination's unique entry count and mapping. *)
Definition dedup_observation (this_addr : nat) (o : Outcome (Z * Store))
    : Outcome (Z * option (Z * list Z)) :=
  '(r, st) ← o;
  Done (r, (λ a, (num_unique_entries_ a, indices_map_ a)) <$> st !! this_addr).

(** Modelled from the spec: option (ii) of the self-deduplication note,
    compaction in place.  [in_att] is [this]: the compacted records are
    written to the attribute's own buffer while the loop runs, so every read
    sees the writes made so far ([staging s] is then the live object).  The
    mapping consulted is the one the attribute had when the call began; the
    new mapping and the count are installed after the loop, as in step 3. *)
Definition dedup_step_in_place (this : PointAttribute) (in_att_offset : Z)
    (s : DedupState) (p : Z) : Outcome DedupState :=
  v ← mapped_index this p;
  content ← GetValue (staging s) (v + in_att_offset);
  dedup_absorb s content.

Fixpoint dedup_loop_in_place (this : PointAttribute) (in_att_offset : Z)
    (points : list Z) (s : DedupState) : Outcome DedupState :=
  match points with
  | [] => Done s
  | p :: rest =>
      s' ← dedup_step_in_place this in_att_offset s p;
      dedup_loop_in_place this in_att_offset rest s'
  end.

Definition DeduplicateSelf_in_place (this : PointAttribute)
    (in_att_offset : Z) : Outcome (Z * PointAttribute) :=
  if dedup_rejects this this then Done (-1, this)
  else
    s ← dedup_loop_in_place this in_att_offset
                           (seqZ 0 (point_count this)) (dedup_init this);
    Done (next_unique s, dedup_install this s).

(** The attribute [a] with another index table. *)
Definition with_indices_map (a : PointAttribute) (m : list Z)
    : PointAttribute :=
  {| descriptor := descriptor a;
     attribute_buffer_ := attribute_buffer_ a;
     indices_map_ := m;
     num_unique_entries_ := num_unique_entries_ a;
     identity_mapping_ := identity_mapping_ a |}.

(** The mutating public operations, and one call of each on an attribute.
    [OpDeduplicateSelf] is the call with [in_att] equal to [this]. *)
Inductive Operation : Type :=
  | OpSetIdentityMapping
  | OpSetExplicitMapping (num_points : Z)
  | OpSetPointMapEntry (point_index entry_index : Z)
  | OpReset (num_attribute_values : Z)
  | OpResize (new_num_unique_entries : Z)
  | OpSetAttributeValue (entry_index : Z) (value : list Z)
  | OpDeduplicateValues (in_att : PointAttribute) (in_att_offset : Z)
  | OpDeduplicateSelf (in_att_offset : Z).

Definition call (op : Operation) (a : PointAttribute)
    : Outcome PointAttribute :=
  match op with
  | OpSetIdentityMapping => Done (SetIdentityMapping a)
  | OpSetExplicitMapping n => Done (SetExplicitMapping a n)
  | OpSetPointMapEntry p e => SetPointMapEntry a p e
  | OpReset n => Done (Reset a n)
  | OpResize n => Done (Resize a n)
  | OpSetAttributeValue e value => SetAttributeValue a e value
  | OpDeduplicateValues in_att off =>
      '(_, a') ← DeduplicateValues a in_att off; Done a'
  | OpDeduplicateSelf off =>
      '(_, a') ← DeduplicateValues a a off; Done a'
  end.

(** The states a program can bring an attribute to: construction followed by
    calls that return. *)
Inductive reachable : PointAttribute → Prop :=
  | reachable_construct att mode : reachable (construct att mode)
  | reachable_call op a a' :
      reachable a → call op a = Done a' → reachable a'.

(** Invariant I1: identity mode implies an empty index table. *)
Definition mapping_invariant (a : PointAttribute) : Prop :=
  identity_mapping_ a = true → indices_map_ a = [].

(** What holds of the loop state once the contents [processed] are in. *)
Record dedup_inv (s : DedupState) (processed : list (list Z)) : Prop := {
  inv_dom : dom (seen s) = list_to_set processed;
  inv_next : next_unique s = Z.of_nat (card (seen s));
  inv_len : length (new_map s) = length processed;
  inv_map : ∀ (j : nat) c, processed !! j = Some c →
    ∃ i, seen s !! c = Some i ∧ new_map s !! j = Some i;
  inv_inj : ∀ c1 c2 i,
    seen s !! c1 = Some i → seen s !! c2 = Some i → c1 = c2;
  inv_range : ∀ c i, seen s !! c = Some i → 0 ≤ i < next_unique s;
  inv_first : ∀ (j : nat) c, processed !! j = Some c →
    c ∉ take j processed →
    new_map s !! j = Some (distinct_count (take j processed));
}.

(** The staging storage keeps the destination's descriptor and holds, at
    every index handed out so far, the content that index stands for. *)
Record staging_inv (stride : Z) (s : DedupState) : Prop := {
  staging_stride : byte_stride (staging s) = stride;
  staging_values : ∀ c i, seen s !! c = Some i →
    GetValue (staging s) i = Done c;
}.

(** What holds of the in-place loop before point [k] is read: the live
    object keeps the stride, at most [k] indices have been handed out, and
    every record from [next_unique] on is still the original one. *)
Definition in_place_inv (this : PointAttribute) (k : Z) (s : DedupState)
    : Prop :=
  byte_stride (staging s) = byte_stride this
  ∧ 0 ≤ next_unique s ≤ k
  ∧ ∀ i, next_unique s ≤ i → GetValue (staging s) i = GetValue this i.

End Declared.

(** ** Filling an explicit table

    The explicit table "needs to be initialized by the caller": the caller's
    loop [SetPointMapEntry(PointIndex(first + i), entries[i])] for each [i] in
    order, which goes no further than the first call that does not return. *)
Section Callers.
Context `{Collaborators}.

Fixpoint assign_entries (a : PointAttribute) (first : Z) (entries : list Z)
    : Outcome PointAttribute :=
  match entries with
  | [] => Done a
  | entry_index :: rest =>
      a' ← SetPointMapEntry a first entry_index;
      assign_entries a' (first + 1) rest
  end.

End Callers.

(** ** A concrete platform

    Draco on an LP64 machine: index types wrap [uint32_t], [size_t] has 64
    bits, the reserved index is the largest [uint32_t], an index is stored
    as four little-endian bytes, and [DCHECK] is on.  The component types are
    a sample of the enumeration; [DT_BOOL] has no deduplication path. *)
Inductive SampleDataType : Type :=
  | DT_UINT8
  | DT_UINT16
  | DT_FLOAT32
  | DT_BOOL.

#[global] Instance SampleDataType_eq_dec : EqDecision SampleDataType.
Proof. solve_decision. Defined.

Definition sample_length (t : SampleDataType) : Z :=
  match t with
  | DT_UINT8 => 1
  | DT_UINT16 => 2
  | DT_FLOAT32 => 4
  | DT_BOOL => 1
  end.

Definition sample_supported (t : SampleDataType) : bool :=
  match t with
  | DT_BOOL => false
  | _ => true
  end.

Definition le_bytes4 (v : Z) : list Z :=
  [v mod 256; (v / 256) mod 256; (v / 65536) mod 256; (v / 16777216) mod 256].

Lemma le_bytes4_length v : length (le_bytes4 v) = 4%nat.
Proof. reflexivity. Qed.

Lemma lp64_widths : 0 < 32 ≤ 64.
Proof. lia. Qed.

Definition lp64 : Collaborators :=
  {| DataType := SampleDataType;
     DataTypeLength := sample_length;
     dedup_supported := sample_supported;
     value_type_bits := 32;
     size_t_bits := 64;
     kInvalidAttributeValueIndex := 4294967295;
     index_object_repr := le_bytes4;
     sizeof_index := 4;
     dcheck_on := true;
     index_object_repr_length := le_bytes4_length;
     value_type_fits_size_t := lp64_widths |}.

(** Stand-ins for the hash utilities, to run the hasher on concrete
    attributes: a shift-and-xor combiner and a polynomial fingerprint. *)
Definition sample_hash_arg (x : HashArg) : Z :=
  match x with
  | HashBool b => Z.b2z b
  | HashValueType v => v
  | HashSizeT n => n
  | HashU64 h => h
  end.

Definition sample_hashes : @HashUtils lp64 :=
  {| GeometryAttributeHasher := λ g : @GeometryAttribute lp64,
       component_count g + 7 * sample_length (component_type g);
     HashCombine := λ x h,
       Z.lxor (Z.shiftl h 2) (sample_hash_arg x) mod 2 ^ 64;
     FingerprintBytes := λ bytes,
       foldl (λ acc b, (acc * 31 + b) mod 2 ^ 64) 2271560481 bytes |}.

(** The attribute of the spec's concrete scenario: three [uint8] components,
    five points in identity mode, values (1,1,1) (2,2,2) (1,1,1) (3,3,3)
    (2,2,2). *)
Definition uint8x3 : @GeometryAttribute lp64 :=
  {| component_type := DT_UINT8 : @DataType lp64; component_count := 3 |}.

Definition scenario : @PointAttribute lp64 :=
  {| descriptor := uint8x3;
     attribute_buffer_ := Some [1; 1; 1; 2; 2; 2; 1; 1; 1; 3; 3; 3; 2; 2; 2];
     indices_map_ := [];
     num_unique_entries_ := 5;
     identity_mapping_ := true |}.

(** An attribute in explicit mode with a two-entry table. *)
Definition explicit_pair (second : Z) : @PointAttribute lp64 :=
  {| descriptor := uint8x3;
     attribute_buffer_ := Some [1; 1; 1; 2; 2; 2; 1; 1; 1];
     indices_map_ := [0; second];
     num_unique_entries_ := 3;
     identity_mapping_ := false |}.

(** The spec's failure scenario: a [float32]×3 source for a [uint8]×2
    destination. *)
Definition float32x3_source : @PointAttribute lp64 :=
  {| descriptor :=
       {| component_type := DT_FLOAT32 : @DataType lp64;
          component_count := 3 |};
     attribute_buffer_ := Some (replicate 24 0);
     indices_map_ := [];
     num_unique_entries_ := 2;
     identity_mapping_ := true |}.

Definition uint8x2_destination : @PointAttribute lp64 :=
  {| descriptor :=
       {| component_type := DT_UINT8 : @DataType lp64;
          component_count := 2 |};
     attribute_buffer_ := Some [9; 9; 8; 8];
     indices_map_ := [1; 0; 1];
     num_unique_entries_ := 2;
     identity_mapping_ := false |}.

(** Three one-byte values 1, 2, 3 read through the explicit mapping
    [2, 0, 1]: point 0 has value 3, point 1 value 1, point 2 value 2. *)
Definition permuted : @PointAttribute lp64 :=
  {| descriptor :=
       {| component_type := DT_UINT8 : @DataType lp64;
          component_count := 1 |};
     attribute_buffer_ := Some [1; 2; 3];
     indices_map_ := [2; 0; 1];
     num_unique_entries_ := 3;
     identity_mapping_ := false |}.

(** Hash utilities that never collide, to tell the collisions the hasher makes
    itself from those of the hash functions: pairs and byte strings are
    numbered one to one. *)
#[global] Instance HashArg_eq_dec : EqDecision HashArg.
Proof. solve_decision. Defined.

Definition HashArg_to_sum (x : HashArg) : bool + (Z + (Z + Z)) :=
  match x with
  | HashBool b => inl b
  | HashValueType v => inr (inl v)
  | HashSizeT n => inr (inr (inl n))
  | HashU64 h => inr (inr (inr h))
  end.

Definition HashArg_of_sum (x : bool + (Z + (Z + Z))) : HashArg :=
  match x with
  | inl b => HashBool b
  | inr (inl v) => HashValueType v
  | inr (inr (inl n)) => HashSizeT n
  | inr (inr (inr h)) => HashU64 h
  end.

#[global] Instance HashArg_countable : Countable HashArg.
Proof.
  refine (inj_countable' HashArg_to_sum HashArg_of_sum _).
  by intros [].
Defined.

Definition ideal_hashes : @HashUtils lp64 :=
  {| GeometryAttributeHasher := λ g : @GeometryAttribute lp64,
       component_count g + 7 * sample_length (component_type g);
     HashCombine := λ x h, Z.pos (encode (x, h));
     FingerprintBytes := λ bytes, Z.pos (encode bytes) |}.

(** ** Properties of the header's member functions *)
Section Properties.
Context `{C : Collaborators} {HU : HashUtils}.

Implicit Types (a : PointAttribute) (p : Z).


Lemma to_size_t_small n :
  0 ≤ n < 2 ^ size_t_bits → to_size_t n = n.
Proof. intros Hn. unfold to_size_t. by apply Z.mod_small. Qed.

Lemma value_type_range_in_size_t n :
  0 ≤ n < 2 ^ value_type_bits → 0 ≤ n < 2 ^ size_t_bits.
Proof.
  intros [Hlo Hhi]. split; [done|].
  pose proof value_type_fits_size_t as [Hpos Hle].
  eapply Z.lt_le_trans; [exact Hhi|].
  apply Z.pow_le_mono_r; lia.
Qed.

Lemma vector_at_lookup (v : list Z) (i : nat) x :
  v !! i = Some x → vector_at v (Z.of_nat i) = Done x.
Proof.
  intros Hx. unfold vector_at.
  rewrite bool_decide_eq_true_2 by lia.
  by rewrite Nat2Z.id, Hx.
Qed.

(** C6. [mapped_index(p)] is [p] itself in identity mode, and the table entry
    of [p] in explicit mode when [p] lies inside the table; storage that was
    just reset is in identity mode, so there [mapped_index(p) = p]. *)
Theorem mapped_index_spec a p :
  (identity_mapping_ a = true → mapped_index a p = Done p)
  ∧ (identity_mapping_ a = false →
     0 ≤ p < Z.of_nat (length (indices_map_ a)) →
     ∃ v, indices_map_ a !! Z.to_nat p = Some v ∧ mapped_index a p = Done v)
  ∧ (∀ n, identity_mapping_ (Reset a n) = true
          ∧ mapped_index (Reset a n) p = Done p).
Proof.
  split; [|split].
  - intros Hid. unfold mapped_index. by rewrite Hid.
  - intros Hex Hp. unfold mapped_index. rewrite Hex.
    destruct (lookup_lt_is_Some_2 (indices_map_ a) (Z.to_nat p)) as [v Hv];
      [lia|].
    exists v. split; [done|].
    rewrite <- (Z2Nat.id p) by lia. by apply vector_at_lookup.
  - intros n. by split.
Qed.


(** C4, as the code has it.  For a non-negative [num_points] that fits
    [size_t], [SetExplicitMapping(num_points)] leaves the attribute in
    explicit mode with a table of exactly [num_points] entries; the entries
    the table already had are kept, every entry beyond the old length is
    [kInvalidAttributeValueIndex], and so is every entry when the table was
    empty before the call. *)
Theorem SetExplicitMapping_table a num_points :
  0 ≤ num_points < 2 ^ size_t_bits →
  let a' := SetExplicitMapping a num_points in
  identity_mapping_ a' = false
  ∧ Z.of_nat (length (indices_map_ a')) = num_points
  ∧ (∀ i : nat, (i < length (indices_map_ a))%nat → Z.of_nat i < num_points →
       indices_map_ a' !! i = indices_map_ a !! i)
  ∧ (∀ i : nat, (length (indices_map_ a) ≤ i)%nat → Z.of_nat i < num_points →
       indices_map_ a' !! i = Some kInvalidAttributeValueIndex)
  ∧ (indices_map_ a = [] →
       indices_map_ a' =
         replicate (Z.to_nat num_points) kInvalidAttributeValueIndex)
  ∧ attribute_buffer_ a' = attribute_buffer_ a
  ∧ num_unique_entries_ a' = num_unique_entries_ a.
Proof.
  intros Hn a'. subst a'. unfold SetExplicitMapping. cbn.
  rewrite (to_size_t_small _ Hn).
  split; [done|]. split; [rewrite length_resize; lia|].
  split; [|split; [|split; [|done]]].
  - intros i Hi Hlt. rewrite lookup_resize by lia. done.
  - intros i Hi Hlt. rewrite lookup_resize_new by lia. done.
  - intros ->. by rewrite resize_nil.
Qed.

(** C10. [SetPointMapEntry] asserts explicit mode: in identity mode a debug
    build aborts on the [DCHECK].  In explicit mode, for a point inside the
    table, the call returns, the entry of that point holds the new index, and
    every other entry, the table length, the count, the buffer, the mode and
    the descriptor are as before. *)
Theorem SetPointMapEntry_spec a p entry_index :
  (identity_mapping_ a = true → dcheck_on = true →
     SetPointMapEntry a p entry_index = Fatal)
  ∧ (identity_mapping_ a = false →
     0 ≤ p < Z.of_nat (length (indices_map_ a)) →
     ∃ a', SetPointMapEntry a p entry_index = Done a'
       ∧ indices_map_ a' !! Z.to_nat p = Some entry_index
       ∧ (∀ q : nat, q ≠ Z.to_nat p →
            indices_map_ a' !! q = indices_map_ a !! q)
       ∧ length (indices_map_ a') = length (indices_map_ a)
       ∧ num_unique_entries_ a' = num_unique_entries_ a
       ∧ attribute_buffer_ a' = attribute_buffer_ a
       ∧ identity_mapping_ a' = identity_mapping_ a
       ∧ descriptor a' = descriptor a).
Proof.
  split.
  - intros Hid Hdbg. unfold SetPointMapEntry, DCHECK.
    by rewrite Hid, Hdbg.
  - intros Hex Hp. unfold SetPointMapEntry, DCHECK, vector_assign.
    rewrite Hex, andb_false_r. cbn.
    rewrite bool_decide_eq_true_2 by done. cbn.
    eexists. split; [done|]. cbn. repeat split.
    + apply list_lookup_insert_eq. lia.
    + intros q Hq. by apply list_lookup_insert_ne.
    + by rewrite length_insert.
Qed.

(** *** The structural fingerprint *)

(** C9. Two attributes with the same descriptor, mode flag, unique entry
    count, index table and buffer get the same hash. *)
Theorem PointAttributeHasher_deterministic a b :
  descriptor a = descriptor b →
  identity_mapping_ a = identity_mapping_ b →
  num_unique_entries_ a = num_unique_entries_ b →
  indices_map_ a = indices_map_ b →
  attribute_buffer_ a = attribute_buffer_ b →
  PointAttributeHasher a = PointAttributeHasher b.
Proof.
  intros Hd Hi Hn Hm Hb. unfold PointAttributeHasher.
  by rewrite Hd, Hi, Hn, Hm, Hb.
Qed.

Lemma vector_data_length (v : list Z) :
  length (vector_data v) = (sizeof_index * length v)%nat.
Proof.
  unfold vector_data. induction v as [|x v IH]; cbn; [lia|].
  rewrite length_app, index_object_repr_length, IH. lia.
Qed.

Lemma vector_data_app (v w : list Z) :
  vector_data (v ++ w) = vector_data v ++ vector_data w.
Proof. unfold vector_data. apply flat_map_app. Qed.

(** The bytes of the table that reach [FingerprintString] are its first
    [size()] bytes; an entry stored at or after that byte offset does not
    show in them. *)
Lemma vector_data_take_prefix (v : list Z) (n i : nat) :
  (n ≤ sizeof_index * i)%nat → (i ≤ length v)%nat →
  take n (vector_data v) = take n (vector_data (take i v)).
Proof.
  intros Hn Hi. rewrite <- (take_drop i v) at 1.
  rewrite vector_data_app.
  rewrite take_app_le
    by (rewrite vector_data_length, length_take, Nat.min_l; lia).
  done.
Qed.

Lemma vector_data_hashed_prefix (v : list Z) (i : nat) x :
  (length v ≤ sizeof_index * i)%nat →
  take (length v) (vector_data (<[i := x]> v))
  = take (length v) (vector_data v).
Proof.
  intros Hi. destruct (decide (i < length v)%nat) as [Hlt|Hge].
  - rewrite (vector_data_take_prefix (<[i := x]> v) _ i),
      (vector_data_take_prefix v _ i); [|lia..|rewrite length_insert; lia].
    by rewrite take_insert_ge by lia.
  - by rewrite list_insert_ge by lia.
Qed.

(** The whole buffer is fingerprinted. *)
Lemma buffer_fully_hashed (buf : list Z) :
  FingerprintString buf (data_size buf) = FingerprintBytes buf.
Proof.
  unfold FingerprintString, data_size.
  by rewrite Nat2Z.id, firstn_all.
Qed.

(** C3, what the code does.  [FingerprintString] is handed the table's
    element count as its byte length, so only the first [size()] bytes of
    the table are hashed: overwriting an entry that lies at or beyond byte
    [size()] leaves the hash as it was, whatever the hash functions are. *)
Theorem PointAttributeHasher_skips_table_tail a (i : nat) x :
  (length (indices_map_ a) ≤ sizeof_index * i)%nat →
  PointAttributeHasher (with_indices_map a (<[i := x]> (indices_map_ a)))
  = PointAttributeHasher a.
Proof.
  intros Hi.
  unfold PointAttributeHasher, FingerprintString, vector_size,
    with_indices_map.
  cbn [descriptor attribute_buffer_ indices_map_ num_unique_entries_
       identity_mapping_].
  rewrite length_insert, Nat2Z.id.
  by rewrite vector_data_hashed_prefix.
Qed.

(** *** Invariant I1 *)

Lemma DeduplicateValues_Done this in_att off r this' :
  DeduplicateValues this in_att off = Done (r, this') →
  (dedup_rejects this in_att = true ∧ r = -1 ∧ this' = this)
  ∨ (dedup_rejects this in_att = false
     ∧ ∃ s, dedup_loop in_att off (seqZ 0 (point_count in_att))
                       (dedup_init this) = Done s
          ∧ r = next_unique s ∧ this' = dedup_install this s).
Proof.
  unfold DeduplicateValues. destruct (dedup_rejects this in_att).
  - intros [= <- <-]. by left.
  - destruct (dedup_loop _ _ _ _) as [s| |]; cbn; [|done..].
    intros [= <- <-]. right. eauto.
Qed.

Lemma call_preserves_invariant op a a' :
  mapping_invariant a → call op a = Done a' → mapping_invariant a'.
Proof.
  unfold mapping_invariant. intros Hinv.
  destruct op as [|n|q e|n|n|e value|in_att off|off]; cbn.
  - by intros [= <-].
  - by intros [= <-].
  - unfold SetPointMapEntry, DCHECK, vector_assign.
    destruct (identity_mapping_ a) eqn:Hid.
    + rewrite (Hinv eq_refl). cbn.
      destruct dcheck_on; cbn; [done|].
      rewrite bool_decide_eq_false_2 by lia. done.
    + rewrite andb_false_r. cbn. case_bool_decide; cbn; [|done].
      intros [= <-]. cbn. congruence.
  - by intros [= <-].
  - by intros [= <-].
  - unfold SetAttributeValue. destruct (buffer a) as [buf|]; [|done].
    destruct (DataBuffer_Write _ _ _ _); cbn; [|done..].
    by intros [= <-].
  - destruct (DeduplicateValues a in_att off) as [[r b]| |] eqn:Hd;
      cbn; [|done..].
    intros [= <-].
    apply DeduplicateValues_Done in Hd as [(_ & _ & ->)|(_ & s & _ & _ & ->)];
      done.
  - destruct (DeduplicateValues a a off) as [[r b]| |] eqn:Hd;
      cbn; [|done..].
    intros [= <-].
    apply DeduplicateValues_Done in Hd as [(_ & _ & ->)|(_ & s & _ & _ & ->)];
      done.
Qed.

(** C7. The invariant "identity mode implies an empty index table" holds
    for a constructed attribute and is kept by every returning call of
    [SetIdentityMapping], [SetExplicitMapping], [SetPointMapEntry], [Reset],
    [Resize], [SetAttributeValue] and [DeduplicateValues]; so it holds in
    every reachable state, where identity mode gives [mapped_index(p) = p]. *)
Theorem mapping_invariant_preserved :
  (∀ att mode, mapping_invariant (construct att mode))
  ∧ (∀ op a a',
       mapping_invariant a → call op a = Done a' → mapping_invariant a')
  ∧ (∀ a, reachable a →
       mapping_invariant a
       ∧ (identity_mapping_ a = true → ∀ p, mapped_index a p = Done p)).
Proof.
  split; [done|]. split; [apply call_preserves_invariant|].
  intros a Hr. split.
  - induction Hr as [att mode|op a a' _ IH Hcall]; [done|].
    by eapply call_preserves_invariant.
  - intros Hid p. unfold mapped_index. by rewrite Hid.
Qed.

(** *** Deduplication: the failure path and self-deduplication *)

(** C2. When the source's component type is unsupported, or its component
    type or count differs from the destination's, [DeduplicateValues] returns
    -1 and the destination is what it was: same unique entry count, same
    index table, same mode, same buffer. *)
Theorem DeduplicateValues_failure this in_att off :
  dedup_supported (component_type (descriptor in_att)) = false
  ∨ component_type (descriptor in_att) ≠ component_type (descriptor this)
  ∨ component_count (descriptor in_att) ≠ component_count (descriptor this) →
  ∃ this', DeduplicateValues this in_att off = Done (-1, this')
    ∧ this' = this
    ∧ num_unique_entries_ this' = num_unique_entries_ this
    ∧ indices_map_ this' = indices_map_ this
    ∧ identity_mapping_ this' = identity_mapping_ this
    ∧ attribute_buffer_ this' = attribute_buffer_ this.
Proof.
  intros Hbad. exists this. split; [|done].
  unfold DeduplicateValues.
  assert (dedup_rejects this in_att = true) as ->; [|done].
  unfold dedup_rejects. destruct Hbad as [->|[Hty|Hcnt]]; [done| |].
  - rewrite (bool_decide_eq_false_2 _ Hty). cbn. by rewrite orb_true_r.
  - rewrite (bool_decide_eq_false_2 _ Hcnt). cbn. by rewrite !orb_true_r.
Qed.

(** While the records go to an object other than the one being read, the
    loop on the store does what the loop on values does: the source object
    stays what it was, and the object at [out_addr] receives the writes. *)
Lemma dedup_loop_at_staged (st : Store) in_addr out_addr off points c
    in_att out :
  out_addr ≠ in_addr →
  st !! in_addr = Some in_att →
  st !! out_addr = Some out →
  dedup_loop_at in_addr out_addr off points c st
  = s ← dedup_loop in_att off points (cursor_state c out);
    Done (state_cursor s, <[out_addr := staging s]> st).
Proof.
  intros Hne. revert c st out.
  induction points as [|q points IH]; intros c st out Hin Hout; cbn.
  - rewrite insert_id by done. by destruct c.
  - unfold dedup_step_at, dedup_step, load. rewrite Hin. cbn.
    destruct (read_source in_att off q) as [content| |]; cbn; [|done..].
    unfold dedup_absorb. cbn.
    destruct (cur_seen c !! content) as [existing|]; cbn.
    + by rewrite (IH _ _ out).
    + rewrite Hout. cbn.
      destruct (SetAttributeValue out (cur_next c) content) as [out'| |];
        cbn; [|done..].
      rewrite (IH _ _ out');
        [|by rewrite lookup_insert_ne|by rewrite lookup_insert_eq].
      destruct (dedup_loop in_att off points _) as [s| |]; cbn; [|done..].
      by rewrite insert_insert_eq.
Qed.

(** With staging, the call on the store is the call on values: whether or
    not [in_addr] is [this_addr], the source is read as it was when the call
    began, and only the object at [this_addr] changes. *)
Lemma DeduplicateValues_at_staged (st : Store) this_addr in_addr off
    this in_att :
  st !! this_addr = Some this →
  st !! in_addr = Some in_att →
  DeduplicateValues_at st this_addr in_addr off
  = '(r, this') ← DeduplicateValues this in_att off;
    Done (r, <[this_addr := this']> st).
Proof.
  intros Hthis Hin. unfold DeduplicateValues_at, DeduplicateValues, load.
  rewrite Hthis, Hin. cbn.
  destruct (dedup_rejects this in_att); cbn.
  { by rewrite insert_id. }
  pose proof (is_fresh (dom st)) as Hfresh.
  apply not_elem_of_dom in Hfresh.
  rewrite (dedup_loop_at_staged _ _ _ _ _ _ in_att this);
    [|congruence|rewrite lookup_insert_ne; [done|congruence]
     |by rewrite lookup_insert_eq].
  change (cursor_state cursor_init this) with (dedup_init this).
  destruct (dedup_loop in_att off _ (dedup_init this)) as [s| |]; cbn;
    [|done..].
  rewrite insert_insert_eq, lookup_insert_eq. cbn.
  by rewrite delete_insert_id.
Qed.


(** *** Deduplication: the loop *)

(** The loop reads every content and absorbs them in order. *)
Lemma dedup_loop_split in_att off points s s' :
  dedup_loop in_att off points s = Done s' →
  ∃ contents, read_all in_att off points = Done contents
    ∧ absorb_all contents s = Done s'.
Proof.
  revert s. induction points as [|q points IH]; intros s; cbn.
  - intros [= ->]. by exists [].
  - unfold dedup_step.
    destruct (read_source in_att off q) as [content| |]; cbn; [|done..].
    destruct (dedup_absorb s content) as [s1| |] eqn:Habs; cbn; [|done..].
    intros Hloop. destruct (IH _ Hloop) as (contents & -> & Hall).
    exists (content :: contents). cbn. by rewrite Habs.
Qed.

Lemma read_all_lookup in_att off points contents (j : nat) q :
  read_all in_att off points = Done contents →
  points !! j = Some q →
  ∃ content, contents !! j = Some content
    ∧ read_source in_att off q = Done content.
Proof.
  revert contents j. induction points as [|q0 points IH];
    intros contents j; cbn; [done|].
  destruct (read_source in_att off q0) as [c0| |] eqn:Hq0; cbn; [|done..].
  destruct (read_all in_att off points) as [cs| |]; cbn; [|done..].
  intros [= <-]. destruct j as [|j]; cbn.
  - intros [= <-]. eauto.
  - intros Hj. by apply IH.
Qed.

Lemma read_all_length in_att off points contents :
  read_all in_att off points = Done contents →
  length contents = length points.
Proof.
  revert contents. induction points as [|q0 points IH]; intros contents; cbn.
  - by intros [= <-].
  - destruct (read_source in_att off q0); cbn; [|done..].
    destruct (read_all in_att off points) as [cs| |]; cbn; [|done..].
    intros [= <-]. cbn. by rewrite (IH cs).
Qed.

Lemma list_to_set_snoc (l : list (list Z)) (x : list Z) :
  list_to_set (l ++ [x]) =@{gset (list Z)} {[x]} ∪ list_to_set l.
Proof.
  rewrite list_to_set_app_L. cbn.
  by rewrite (right_id_L ∅ (∪)), (comm_L (∪)).
Qed.

Lemma dedup_inv_init this : dedup_inv (dedup_init this) [].
Proof. split; cbn; try done. Qed.

Lemma dedup_absorb_inv s processed content s' :
  dedup_inv s processed →
  dedup_absorb s content = Done s' →
  dedup_inv s' (processed ++ [content]).
Proof.
  intros [Hdom Hnext Hlen Hmap Hinj Hrange Hfirst]. unfold dedup_absorb.
  destruct (seen s !! content) as [i|] eqn:Hseen.
  - intros [= <-]. split; cbn.
    + rewrite list_to_set_snoc, <- Hdom.
      symmetry. apply subseteq_union_1_L, singleton_subseteq_l.
      apply elem_of_dom. eauto.
    + done.
    + rewrite !length_app, Hlen. done.
    + intros j c Hj. apply lookup_app_Some in Hj as [Hj|[Hge Hj]].
      * destruct (Hmap j c Hj) as (i' & ? & ?). exists i'. split; [done|].
        by apply lookup_app_l_Some.
      * apply list_lookup_singleton_Some in Hj as [Hj0 <-].
        exists i. split; [done|].
        rewrite lookup_app_r by lia.
        replace (j - length (new_map s))%nat with 0%nat by lia. done.
    + done.
    + done.
    + intros j c Hj Hnew. apply lookup_app_Some in Hj as [Hj|[Hge Hj]].
      * pose proof (lookup_lt_Some _ _ _ Hj) as Hlt.
        rewrite take_app_le in Hnew |- * by lia.
        rewrite lookup_app_l by lia. by apply (Hfirst j c).
      * apply list_lookup_singleton_Some in Hj as [Hj0 <-].
        exfalso. apply Hnew.
        replace j with (length processed) by lia.
        rewrite take_app_length.
        assert (content ∈ dom (seen s)) as Hin by (apply elem_of_dom; eauto).
        rewrite Hdom in Hin. by apply elem_of_list_to_set in Hin.
  - destruct (SetAttributeValue _ _ _) as [st| |]; cbn; [|done..].
    intros [= <-].
    assert (content ∉ processed) as Hfresh.
    { intros Hin. apply (elem_of_list_to_set (C:=gset (list Z))) in Hin.
      rewrite <- Hdom in Hin. apply elem_of_dom in Hin as [? ?]. congruence. }
    split; cbn.
    + by rewrite dom_insert_L, list_to_set_snoc, Hdom.
    + rewrite map_size_insert_None by done. lia.
    + rewrite !length_app, Hlen. done.
    + intros j c Hj. apply lookup_app_Some in Hj as [Hj|[Hge Hj]].
      * destruct (Hmap j c Hj) as (i' & ? & ?). exists i'.
        split; [|by apply lookup_app_l_Some].
        rewrite lookup_insert_ne; [done|].
        intros <-. apply Hfresh. by eapply list_elem_of_lookup_2.
      * apply list_lookup_singleton_Some in Hj as [Hj0 <-].
        exists (next_unique s). split; [by rewrite lookup_insert_eq|].
        rewrite lookup_app_r by lia.
        replace (j - length (new_map s))%nat with 0%nat by lia. done.
    + intros c1 c2 i. rewrite !lookup_insert.
      repeat case_decide; subst; try done.
      * intros [= <-] H2. apply Hrange in H2. lia.
      * intros H1 [= <-]. apply Hrange in H1. lia.
      * apply Hinj.
    + intros c i. rewrite lookup_insert. case_decide; subst.
      * intros [= <-]. pose proof (Nat2Z.is_nonneg (card (seen s))). lia.
      * intros Hc. apply Hrange in Hc. lia.
    + intros j c Hj Hnew. apply lookup_app_Some in Hj as [Hj|[Hge Hj]].
      * pose proof (lookup_lt_Some _ _ _ Hj) as Hlt.
        rewrite take_app_le in Hnew |- * by lia.
        rewrite lookup_app_l by lia. by apply (Hfirst j c).
      * apply list_lookup_singleton_Some in Hj as [Hj0 <-].
        replace j with (length processed) by lia.
        rewrite take_app_length, lookup_app_r by lia.
        replace (length processed - length (new_map s))%nat with 0%nat by lia.
        cbn. f_equal. unfold distinct_count.
        rewrite Hnext, <- Hdom, size_dom. done.
Qed.

Lemma absorb_all_inv contents s processed s' :
  dedup_inv s processed →
  absorb_all contents s = Done s' →
  dedup_inv s' (processed ++ contents).
Proof.
  revert s processed. induction contents as [|c contents IH];
    intros s processed Hinv; cbn.
  - intros [= <-]. by rewrite app_nil_r.
  - destruct (dedup_absorb s c) as [s1| |] eqn:Habs; cbn; [|done..].
    intros Hall. rewrite cons_middle, app_assoc.
    eapply IH; [|done]. by eapply dedup_absorb_inv.
Qed.





(** *** Deduplication: the compacted buffer *)

Lemma DataBuffer_Read_length (buf : list Z) pos n c :
  DataBuffer_Read buf pos n = Done c →
  0 ≤ n ∧ Z.of_nat (length c) = n.
Proof.
  unfold DataBuffer_Read. case_bool_decide as Hb; [|done].
  intros [= <-]. rewrite length_take, length_drop. lia.
Qed.

Lemma DataBuffer_Write_length (buf : list Z) pos data n buf' :
  DataBuffer_Write buf pos data n = Done buf' → length buf' = length buf.
Proof.
  unfold DataBuffer_Write. case_bool_decide as Hb; [|done].
  intros [= <-]. rewrite !length_app, !length_take, length_drop. lia.
Qed.

(** A record just written is read back. *)
Lemma DataBuffer_Read_written (buf : list Z) pos data n buf' :
  DataBuffer_Write buf pos data n = Done buf' →
  Z.of_nat (length data) = n →
  DataBuffer_Read buf' pos n = Done data.
Proof.
  intros Hw Hn. pose proof (DataBuffer_Write_length _ _ _ _ _ Hw) as Hlen.
  revert Hw. unfold DataBuffer_Write, DataBuffer_Read.
  case_bool_decide as Hb; [|done]. intros [= <-].
  rewrite bool_decide_eq_true_2 by lia. f_equal.
  rewrite drop_app_length' by (rewrite length_take; lia).
  rewrite (take_ge data) by lia.
  rewrite take_app_length' by lia. done.
Qed.

(** A write leaves every record that ends before it as it was. *)
Lemma DataBuffer_Read_before_write (buf : list Z) pos data n buf' pos0 n0 c :
  DataBuffer_Write buf pos data n = Done buf' →
  DataBuffer_Read buf pos0 n0 = Done c →
  pos0 + n0 ≤ pos →
  DataBuffer_Read buf' pos0 n0 = Done c.
Proof.
  intros Hw Hr Hle. pose proof (DataBuffer_Write_length _ _ _ _ _ Hw) as Hlen.
  revert Hw Hr. unfold DataBuffer_Write, DataBuffer_Read.
  case_bool_decide as Hb; [|done]. intros [= <-].
  case_bool_decide as Hb0; [|done]. intros [= <-].
  rewrite bool_decide_eq_true_2 by lia. f_equal.
  rewrite drop_app_le by (rewrite length_take; lia).
  rewrite take_app_le by (rewrite length_drop, length_take; lia).
  rewrite !take_drop_commute, take_take. do 2 f_equal. lia.
Qed.

Lemma read_source_length in_att off q c :
  read_source in_att off q = Done c →
  0 ≤ byte_stride in_att ∧ Z.of_nat (length c) = byte_stride in_att.
Proof.
  unfold read_source, GetValue.
  destruct (mapped_index in_att q) as [v| |]; cbn; [|done..].
  destruct (buffer in_att) as [buf|]; [|done].
  apply DataBuffer_Read_length.
Qed.

Lemma dedup_rejects_false this in_att :
  dedup_rejects this in_att = false → descriptor in_att = descriptor this.
Proof.
  unfold dedup_rejects. intros Hrej.
  apply orb_false_elim in Hrej as [Hrej Hcount].
  apply orb_false_elim in Hrej as [_ Htype].
  apply negb_false_iff, bool_decide_eq_true in Htype, Hcount.
  destruct (descriptor in_att), (descriptor this). cbn in *. congruence.
Qed.

Lemma dedup_absorb_staging stride s processed content s' :
  dedup_inv s processed →
  staging_inv stride s →
  0 ≤ stride → Z.of_nat (length content) = stride →
  dedup_absorb s content = Done s' →
  staging_inv stride s'.
Proof.
  intros Hinv [Hstride Hvals] Hpos Hlen. unfold dedup_absorb.
  destruct (seen s !! content) as [i|] eqn:Hseen.
  - intros [= <-]. by split.
  - unfold SetAttributeValue, buffer.
    destruct (attribute_buffer_ (staging s)) as [buf|] eqn:Hbuf; [|done].
    destruct (DataBuffer_Write _ _ _ _) as [buf'| |] eqn:Hw; cbn; [|done..].
    intros [= <-]. split; cbn; [done|].
    intros c i. unfold GetValue, buffer, byte_stride. cbn.
    fold (byte_stride (staging s)). rewrite Hstride in Hw |- *.
    rewrite lookup_insert. case_decide as Hc.
    + intros [= <-]. subst c. by eapply DataBuffer_Read_written.
    + intros Hi. pose proof (inv_range _ _ Hinv _ _ Hi) as Hrange.
      pose proof (Hvals _ _ Hi) as Hold.
      unfold GetValue, buffer in Hold. rewrite Hbuf, Hstride in Hold.
      eapply DataBuffer_Read_before_write; [done..|]. nia.
Qed.

Lemma absorb_all_staging stride contents s processed s' :
  dedup_inv s processed →
  staging_inv stride s →
  0 ≤ stride →
  Forall (λ c, Z.of_nat (length c) = stride) contents →
  absorb_all contents s = Done s' →
  staging_inv stride s'.
Proof.
  intros Hinv Hst Hpos Hlens. revert s processed Hinv Hst.
  induction Hlens as [|c contents Hc _ IH]; intros s processed Hinv Hst; cbn.
  - by intros [= <-].
  - destruct (dedup_absorb s c) as [s1| |] eqn:Habs; cbn; [|done..].
    apply (IH s1 (processed ++ [c])).
    + by eapply dedup_absorb_inv.
    + by eapply dedup_absorb_staging.
Qed.

(** After a successful deduplication every point reads, through the new
    mapping, the content it had in the source; so the first K records of the
    buffer are the K distinct contents in first-occurrence order. *)
Theorem DeduplicateValues_preserves_values this in_att off r this' :
  DeduplicateValues this in_att off = Done (r, this') →
  r ≠ -1 →
  ∀ (j : nat) c,
    Z.of_nat j < point_count in_att →
    read_source in_att off (Z.of_nat j) = Done c →
    GetMappedValue this' (Z.of_nat j) = Done c.
Proof.
  intros Hd Hr j c Hj Hsrc.
  apply DeduplicateValues_Done in Hd
    as [(_ & -> & _)|(Hrej & s & Hloop & -> & ->)]; [done|].
  apply dedup_rejects_false in Hrej.
  apply dedup_loop_split in Hloop as (contents & Hread & Hall).
  pose proof (absorb_all_inv _ _ [] _ (dedup_inv_init this) Hall) as Hinv.
  destruct (read_all_lookup _ _ _ _ j (Z.of_nat j) Hread) as (c' & Hc' & Hsrc').
  { rewrite lookup_seqZ. lia. }
  assert (c' = c) as -> by congruence.
  destruct (read_source_length _ _ _ _ Hsrc) as [Hpos Hlen].
  assert (byte_stride in_att = byte_stride this) as Hstride
    by (unfold byte_stride; by rewrite Hrej).
  assert (staging_inv (byte_stride this) s) as [Hst Hvals].
  { eapply (absorb_all_staging _ contents (dedup_init this) []); [| |lia| |done].
    - apply dedup_inv_init.
    - by split.
    - apply Forall_lookup. intros k ck Hk.
      destruct (lookup_lt_is_Some_2 (seqZ 0 (point_count in_att)) k)
        as [q Hq].
      { rewrite <- (read_all_length _ _ _ _ Hread).
        by eapply lookup_lt_Some. }
      destruct (read_all_lookup _ _ _ _ k q Hread Hq) as (ck' & Hck' & Hsk).
      assert (ck' = ck) as -> by congruence.
      apply read_source_length in Hsk. lia. }
  cbn in Hinv. destruct (inv_map _ _ Hinv j c Hc') as (i & Hseen & Hmap).
  unfold GetMappedValue, mapped_index, dedup_install. cbn.
  rewrite (vector_at_lookup _ _ _ Hmap). cbn.
  specialize (Hvals _ _ Hseen). revert Hvals.
  unfold GetValue, buffer, byte_stride in *. cbn. by rewrite Hst.
Qed.

(** *** Self-deduplication in place *)

(** A write leaves every record that starts after it as it was. *)
Lemma DataBuffer_Read_after_write (buf : list Z) pos data n buf' pos0 n0 :
  DataBuffer_Write buf pos data n = Done buf' →
  pos + n ≤ pos0 →
  DataBuffer_Read buf' pos0 n0 = DataBuffer_Read buf pos0 n0.
Proof.
  intros Hw Hle. pose proof (DataBuffer_Write_length _ _ _ _ _ Hw) as Hlen.
  revert Hw. unfold DataBuffer_Write, DataBuffer_Read.
  case_bool_decide as Hb; [|done]. intros [= <-].
  rewrite !length_app, !length_take, length_drop.
  replace (Z.of_nat (_ + (_ + _))) with (Z.of_nat (length buf)) by lia.
  case_bool_decide as Hb0; [|done]. do 2 f_equal.
  rewrite drop_app_ge by (rewrite length_take; lia).
  rewrite drop_app_ge by (rewrite !length_take; lia).
  rewrite drop_drop, !length_take. f_equal. lia.
Qed.

Lemma dedup_absorb_in_place this k s content s' :
  in_place_inv this k s →
  dedup_absorb s content = Done s' →
  in_place_inv this (k + 1) s'.
Proof.
  intros (Hstride & Hnext & Htail). unfold dedup_absorb.
  destruct (seen s !! content) as [i|].
  - intros [= <-]. split; [done|]. split; [cbn; lia|done].
  - unfold SetAttributeValue, buffer.
    destruct (attribute_buffer_ (staging s)) as [buf|] eqn:Hbuf; [|done].
    destruct (DataBuffer_Write _ _ _ _) as [buf'| |] eqn:Hw; cbn; [|done..].
    intros [= <-]. split; [done|]. split; [cbn; lia|]. cbn.
    intros i Hi. rewrite <- Htail by lia.
    unfold GetValue, buffer, byte_stride. cbn.
    fold (byte_stride (staging s)). rewrite Hbuf.
    eapply DataBuffer_Read_after_write; [done|].
    assert (0 ≤ byte_stride (staging s)).
    { revert Hw. unfold DataBuffer_Write. case_bool_decide; [lia|done]. }
    nia.
Qed.

Lemma dedup_loop_in_place_identity this off (n : nat) k s :
  identity_mapping_ this = true →
  0 ≤ off →
  in_place_inv this k s →
  dedup_loop_in_place this off (seqZ k (Z.of_nat n)) s
  = dedup_loop this off (seqZ k (Z.of_nat n)) s.
Proof.
  intros Hid Hoff. revert k s.
  induction n as [|n IH]; intros k s Hinv; [done|].
  rewrite seqZ_cons by lia.
  replace (Z.pred (Z.of_nat (S n))) with (Z.of_nat n) by lia. cbn.
  assert (dedup_step_in_place this off s k = dedup_step this off s k)
    as Hstep.
  { unfold dedup_step_in_place, dedup_step, read_source, mapped_index.
    rewrite Hid. cbn. destruct Hinv as (_ & Hnext & Htail).
    rewrite Htail by lia. done. }
  rewrite Hstep. destruct (dedup_step this off s k) as [s1| |] eqn:Hs1;
    cbn; [|done..].
  apply IH. unfold dedup_step in Hs1.
  destruct (read_source this off k) as [content| |]; cbn in Hs1; [|done..].
  replace (Z.succ k) with (k + 1) by lia.
  by eapply dedup_absorb_in_place.
Qed.

(** For an attribute in identity mode and a non-negative offset, compacting
    in place reads the same contents as compacting through a staging copy:
    a new record lands at an index no larger than the point being read, so
    no source record is overwritten before it has been read. *)
Theorem in_place_self_dedup_identity this off :
  identity_mapping_ this = true →
  0 ≤ off →
  DeduplicateSelf_in_place this off = DeduplicateValues this this off.
Proof.
  intros Hid Hoff. unfold DeduplicateSelf_in_place, DeduplicateValues.
  destruct (dedup_rejects this this); [done|].
  destruct (decide (0 ≤ point_count this)) as [Hn|Hn].
  - rewrite <- (Z2Nat.id (point_count this)) by done.
    rewrite dedup_loop_in_place_identity; [done..|].
    split; [done|]. split; [cbn; lia|done].
  - rewrite !seqZ_nil by lia. done.
Qed.

(** On the store, with [in_att] the very object being compacted: every read
    sees the records already moved, which is the loop
    [dedup_loop_in_place]. *)
Lemma dedup_loop_at_aliased (st : Store) addr off points c this live :
  st !! addr = Some live →
  indices_map_ live = indices_map_ this →
  identity_mapping_ live = identity_mapping_ this →
  dedup_loop_at addr addr off points c st
  = s ← dedup_loop_in_place this off points (cursor_state c live);
    Done (state_cursor s, <[addr := staging s]> st).
Proof.
  revert c st live.
  induction points as [|q points IH]; intros c st live Hlive Hmap Hmode; cbn.
  - rewrite insert_id by done. by destruct c.
  - unfold dedup_step_at, dedup_step_in_place, load, read_source.
    rewrite Hlive. cbn.
    assert (mapped_index live q = mapped_index this q) as ->
      by (unfold mapped_index; by rewrite Hmap, Hmode).
    destruct (mapped_index this q) as [v| |]; cbn; [|done..].
    destruct (GetValue live (v + off)) as [content| |]; cbn; [|done..].
    unfold dedup_absorb. cbn.
    destruct (cur_seen c !! content) as [existing|]; cbn.
    + by rewrite (IH _ _ live).
    + destruct (SetAttributeValue live (cur_next c) content) as [live'| |]
        eqn:Hset; cbn; [|done..].
      assert (indices_map_ live' = indices_map_ live
              ∧ identity_mapping_ live' = identity_mapping_ live)
        as [Hmap' Hmode'].
      { revert Hset. unfold SetAttributeValue.
        destruct (buffer live); [|done].
        destruct (DataBuffer_Write _ _ _ _); cbn; [|done..].
        by intros [= <-]. }
      rewrite (IH _ _ live');
        [|by rewrite lookup_insert_eq|congruence|congruence].
      destruct (dedup_loop_in_place this off points _) as [s| |]; cbn;
        [|done..].
      by rewrite insert_insert_eq.
Qed.

Lemma DeduplicateValues_in_place_at_self (st : Store) addr off this :
  st !! addr = Some this →
  DeduplicateValues_in_place_at st addr addr off
  = '(r, this') ← DeduplicateSelf_in_place this off;
    Done (r, <[addr := this']> st).
Proof.
  intros Hthis.
  unfold DeduplicateValues_in_place_at, DeduplicateSelf_in_place, load.
  rewrite Hthis. cbn.
  destruct (dedup_rejects this this); cbn.
  { by rewrite insert_id. }
  rewrite (dedup_loop_at_aliased _ _ _ _ _ this this) by done.
  change (cursor_state cursor_init this) with (dedup_init this).
  destruct (dedup_loop_in_place this off _ (dedup_init this)) as [s| |];
    cbn; [|done..].
  rewrite lookup_insert_eq. cbn. by rewrite insert_insert_eq.
Qed.

(** Compaction in place between two different objects is the staged call:
    the order of reads and writes only matters when [in_att] is [this]. *)
Theorem in_place_at_distinct_objects (st : Store) this_addr in_addr off
    this in_att :
  st !! this_addr = Some this →
  st !! in_addr = Some in_att →
  this_addr ≠ in_addr →
  DeduplicateValues_in_place_at st this_addr in_addr off
  = DeduplicateValues_at st this_addr in_addr off.
Proof.
  intros Hthis Hin Hne.
  rewrite (DeduplicateValues_at_staged _ _ _ _ this in_att) by done.
  unfold DeduplicateValues_in_place_at, DeduplicateValues, load.
  rewrite Hthis, Hin. cbn.
  destruct (dedup_rejects this in_att); cbn.
  { by rewrite insert_id. }
  rewrite (dedup_loop_at_staged _ _ _ _ _ _ in_att this) by done.
  change (cursor_state cursor_init this) with (dedup_init this).
  destruct (dedup_loop in_att off _ (dedup_init this)) as [s| |]; cbn;
    [|done..].
  rewrite lookup_insert_eq. cbn. by rewrite insert_insert_eq.
Qed.

(** Self-deduplication in place, on the store, agrees with the staged call
    for an attribute in identity mode and a non-negative offset. *)
Theorem in_place_at_self_identity (st : Store) addr off this :
  st !! addr = Some this →
  identity_mapping_ this = true →
  0 ≤ off →
  DeduplicateValues_in_place_at st addr addr off
  = DeduplicateValues_at st addr addr off.
Proof.
  intros Hthis Hid Hoff.
  rewrite (DeduplicateValues_in_place_at_self _ _ _ this) by done.
  rewrite (DeduplicateValues_at_staged _ _ _ _ this this) by done.
  by rewrite in_place_self_dedup_identity.
Qed.
End Properties.

(** ** Further properties of the header's member functions *)
Section Coverage.
Context `{C : Collaborators} {HU : HashUtils}.

Implicit Types (a : PointAttribute) (p : Z).

Lemma SetPointMapEntry_Done a p e a' :
  SetPointMapEntry a p e = Done a' →
  0 ≤ p < Z.of_nat (length (indices_map_ a))
  ∧ a' = with_indices_map a (<[Z.to_nat p := e]> (indices_map_ a)).
Proof.
  unfold SetPointMapEntry, DCHECK, vector_assign.
  destruct (dcheck_on && negb (negb (identity_mapping_ a))); cbn; [done|].
  case_bool_decide; cbn; [|done]. by intros [= <-].
Qed.

Lemma SetPointMapEntry_explicit a p e :
  identity_mapping_ a = false →
  0 ≤ p < Z.of_nat (length (indices_map_ a)) →
  SetPointMapEntry a p e
  = Done (with_indices_map a (<[Z.to_nat p := e]> (indices_map_ a))).
Proof.
  intros Hex Hp.
  unfold SetPointMapEntry, DCHECK, vector_assign, with_indices_map.
  rewrite Hex, andb_false_r. cbn.
  rewrite bool_decide_eq_true_2 by done. reflexivity.
Qed.

Lemma vector_at_Done (v : list Z) i x :
  vector_at v i = Done x ↔ 0 ≤ i ∧ v !! Z.to_nat i = Some x.
Proof.
  unfold vector_at. case_bool_decide as Hi.
  - destruct (v !! Z.to_nat i) as [y|]; split.
    + by intros [= ->].
    + by intros [_ [= ->]].
    + done.
    + by intros [_ ?].
  - split; [done|]. intros [? _]. lia.
Qed.

(** X1. [SetIdentityMapping] discards whatever mapping there was: its result
    is the same after a [SetExplicitMapping] or a returned [SetPointMapEntry]
    as without them, calling it twice is calling it once, and afterwards
    every point maps to itself, while count and buffer are as before. *)
Theorem SetIdentityMapping_discards_mapping a n :
  (∀ q e a1, SetPointMapEntry a q e = Done a1 →
     SetIdentityMapping a1 = SetIdentityMapping a)
  ∧ SetIdentityMapping (SetExplicitMapping a n) = SetIdentityMapping a
  ∧ SetIdentityMapping (SetIdentityMapping a) = SetIdentityMapping a
  ∧ is_mapping_identity (SetIdentityMapping a) = true
  ∧ (∀ p, mapped_index (SetIdentityMapping a) p = Done p)
  ∧ num_unique_entries_ (SetIdentityMapping a) = num_unique_entries_ a
  ∧ attribute_buffer_ (SetIdentityMapping a) = attribute_buffer_ a.
Proof.
  split; [|by repeat split].
  intros q e a1 Hset. by apply SetPointMapEntry_Done in Hset as [_ ->].
Qed.

(** X2. A table sized right after [SetIdentityMapping] reads the sentinel at
    every point below [num_points], and reading at or beyond [num_points] (or
    below zero) is outside the table. *)
Theorem fresh_explicit_mapping_reads_sentinel a num_points p :
  0 ≤ num_points < 2 ^ size_t_bits →
  let a' := SetExplicitMapping (SetIdentityMapping a) num_points in
  indices_map_ a'
  = replicate (Z.to_nat num_points) kInvalidAttributeValueIndex
  ∧ (0 ≤ p < num_points →
     mapped_index a' p = Done kInvalidAttributeValueIndex)
  ∧ (p < 0 ∨ num_points ≤ p → mapped_index a' p = Undefined).
Proof.
  intros Hn a'. subst a'. unfold SetExplicitMapping, mapped_index. cbn.
  rewrite (to_size_t_small _ Hn), resize_nil.
  split; [done|]. split.
  - intros Hp. apply vector_at_Done. split; [lia|].
    apply lookup_replicate_2. lia.
  - intros Hp. unfold vector_at. case_bool_decide; [|done].
    rewrite (proj1 (lookup_replicate_None _ _ _)) by lia. done.
Qed.

(** X3. [SetExplicitMapping] with a [num_points] no larger than the current
    table keeps the first [num_points] entries and drops the rest; with the
    current length it leaves the table as it is. *)
Theorem SetExplicitMapping_shrinks a num_points :
  0 ≤ num_points < 2 ^ size_t_bits →
  num_points ≤ Z.of_nat (length (indices_map_ a)) →
  indices_map_ (SetExplicitMapping a num_points)
  = take (Z.to_nat num_points) (indices_map_ a)
  ∧ (num_points = Z.of_nat (length (indices_map_ a)) →
     indices_map_ (SetExplicitMapping a num_points) = indices_map_ a).
Proof.
  intros Hn Hle. unfold SetExplicitMapping. cbn.
  rewrite (to_size_t_small _ Hn), resize_le by lia.
  split; [done|]. intros ->. rewrite take_ge; [done|lia].
Qed.

(** X4. Sizing the table to [n] points and then to [m ≤ n] points is the same
    as sizing it to [m] points at once. *)
Theorem SetExplicitMapping_twice a n m :
  0 ≤ m ≤ n → n < 2 ^ size_t_bits →
  SetExplicitMapping (SetExplicitMapping a n) m = SetExplicitMapping a m.
Proof.
  intros Hm Hn. unfold SetExplicitMapping. cbn.
  rewrite !to_size_t_small by lia.
  rewrite resize_resize by lia. done.
Qed.

(** X5. What [SetPointMapEntry] stores, [mapped_index] returns: after a
    returned [SetPointMapEntry(p, e)] in explicit mode the point [p] maps to
    [e] and reads the value stored at [e], and every other point maps as
    before. *)
Theorem SetPointMapEntry_mapped_index a p e a' :
  identity_mapping_ a = false →
  SetPointMapEntry a p e = Done a' →
  mapped_index a' p = Done e
  ∧ (∀ q, q ≠ p → mapped_index a' q = mapped_index a q)
  ∧ GetMappedValue a' p = GetValue a e.
Proof.
  intros Hex Hset. apply SetPointMapEntry_Done in Hset as [Hp ->].
  assert (mapped_index
            (with_indices_map a (<[Z.to_nat p := e]> (indices_map_ a))) p
          = Done e) as Hread.
  { unfold mapped_index, with_indices_map. cbn. rewrite Hex.
    apply vector_at_Done. split; [lia|].
    apply list_lookup_insert_eq. lia. }
  split; [done|]. split.
  - intros q Hq. unfold mapped_index, with_indices_map. cbn. rewrite Hex.
    unfold vector_at. case_bool_decide; [|done].
    rewrite list_lookup_insert_ne by lia. done.
  - unfold GetMappedValue. rewrite Hread. done.
Qed.

(** X6. [SetPointMapEntry] has no bounds check and never resizes: a call
    that returns was for a point inside the table and leaves the table
    length and the mode as they were; in explicit mode a point outside the
    table is undefined behaviour; and in identity mode with its empty table
    the call never returns (the [DCHECK] aborts a debug build, the write is
    out of bounds otherwise). *)
Theorem SetPointMapEntry_bounds a p e :
  (∀ a', SetPointMapEntry a p e = Done a' →
     0 ≤ p < Z.of_nat (length (indices_map_ a))
     ∧ length (indices_map_ a') = length (indices_map_ a)
     ∧ identity_mapping_ a' = identity_mapping_ a)
  ∧ (identity_mapping_ a = false →
     ¬ (0 ≤ p < Z.of_nat (length (indices_map_ a))) →
     SetPointMapEntry a p e = Undefined)
  ∧ (identity_mapping_ a = true → indices_map_ a = [] →
     SetPointMapEntry a p e = if dcheck_on then Fatal else Undefined).
Proof.
  split; [|split].
  - intros a' Hset. apply SetPointMapEntry_Done in Hset as [Hp ->].
    split; [done|]. cbn. by rewrite length_insert.
  - intros Hex Hp. unfold SetPointMapEntry, DCHECK, vector_assign.
    rewrite Hex, andb_false_r. cbn. by rewrite bool_decide_eq_false_2.
  - intros Hid Hnil. unfold SetPointMapEntry, DCHECK, vector_assign.
    rewrite Hid, Hnil. destruct dcheck_on; cbn; [done|].
    rewrite bool_decide_eq_false_2 by lia. done.
Qed.

(** X7. Two assignments to the same point amount to the last one, and
    assignments to different points can be made in either order; both hold
    whatever the mode and whether or not the calls return. *)
Theorem SetPointMapEntry_overwrite_commute a p q e f :
  (a1 ← SetPointMapEntry a p e; SetPointMapEntry a1 p f)
  = SetPointMapEntry a p f
  ∧ (p ≠ q →
     (a1 ← SetPointMapEntry a p e; SetPointMapEntry a1 q f)
     = (a1 ← SetPointMapEntry a q f; SetPointMapEntry a1 p e)).
Proof.
  unfold SetPointMapEntry, DCHECK, vector_assign. cbn.
  destruct (dcheck_on && negb (negb (identity_mapping_ a))) eqn:Hd; cbn;
    [done|].
  split.
  - case_bool_decide as Hp; cbn; [|done].
    rewrite Hd. cbn. rewrite length_insert.
    rewrite bool_decide_eq_true_2 by done. cbn.
    by rewrite list_insert_insert_eq.
  - intros Hne.
    case_bool_decide as Hp; case_bool_decide as Hq; cbn; rewrite ?Hd; cbn;
      rewrite ?length_insert;
      rewrite ?(bool_decide_eq_true_2 _ Hp), ?(bool_decide_eq_true_2 _ Hq),
        ?(bool_decide_eq_false_2 _ Hp), ?(bool_decide_eq_false_2 _ Hq);
      cbn; try done.
    rewrite list_insert_insert_ne by lia. done.
Qed.


Lemma assign_entries_from a (pre old entries : list Z) :
  identity_mapping_ a = false →
  indices_map_ a = pre ++ old →
  length old = length entries →
  assign_entries a (Z.of_nat (length pre)) entries
  = Done (with_indices_map a (pre ++ entries)).
Proof.
  revert a pre old. induction entries as [|e entries IH];
    intros a pre old Hex Hmap Hlen.
  - destruct old; [|done]. cbn. f_equal. rewrite <- Hmap.
    by destruct a.
  - destruct old as [|o old]; [done|]. cbn.
    rewrite SetPointMapEntry_explicit;
      [|done|rewrite Hmap, length_app; cbn; lia]. cbn.
    rewrite Hmap, Nat2Z.id.
    replace (length pre) with (length pre + 0)%nat at 1 by lia.
    rewrite insert_app_r. cbn.
    replace (Z.of_nat (length pre) + 1) with (Z.of_nat (length (pre ++ [e])))
      by (rewrite length_app; cbn; lia).
    rewrite (IH _ (pre ++ [e]) old); [| done | | by injection Hlen].
    + unfold with_indices_map. cbn. by rewrite <- app_assoc.
    + cbn. by rewrite <- app_assoc.
Qed.

(** X8. Sizing the table for [num_points] points and then assigning the
    entries [entries] to the points [0 .. num_points - 1] in order returns
    with exactly [entries] as the table, whatever the table held before:
    every point then maps to its entry, count and buffer are untouched, and
    if no assigned entry is the sentinel, [mapped_index] never returns it. *)
Theorem assign_entries_fills a num_points (entries : list Z) :
  0 ≤ num_points < 2 ^ size_t_bits →
  Z.of_nat (length entries) = num_points →
  ∃ a', assign_entries (SetExplicitMapping a num_points) 0 entries = Done a'
    ∧ indices_map_ a' = entries
    ∧ identity_mapping_ a' = false
    ∧ num_unique_entries_ a' = num_unique_entries_ a
    ∧ attribute_buffer_ a' = attribute_buffer_ a
    ∧ (∀ (j : nat) e, entries !! j = Some e →
         mapped_index a' (Z.of_nat j) = Done e)
    ∧ (kInvalidAttributeValueIndex ∉ entries →
       ∀ p, mapped_index a' p ≠ Done kInvalidAttributeValueIndex).
Proof.
  intros Hn Hlen.
  pose proof (assign_entries_from (SetExplicitMapping a num_points) []
                (indices_map_ (SetExplicitMapping a num_points)) entries
                eq_refl eq_refl) as Hrun.
  cbn in Hrun. rewrite length_resize, (to_size_t_small _ Hn) in Hrun.
  eexists. split; [apply Hrun; lia|]. cbn.
  split; [done|]. split; [done|]. split; [done|]. split; [done|].
  unfold mapped_index. cbn. split.
  - intros j e Hj. by apply vector_at_lookup.
  - intros Hnone p Hp. apply vector_at_Done in Hp as [_ Hp].
    apply Hnone. by eapply list_elem_of_lookup_2.
Qed.

(** *** Writing values *)

Lemma DataBuffer_Read_written_prefix (buf : list Z) pos data n buf' :
  DataBuffer_Write buf pos data n = Done buf' →
  DataBuffer_Read buf' pos n = Done (take (Z.to_nat n) data).
Proof.
  intros Hw. pose proof (DataBuffer_Write_length _ _ _ _ _ Hw) as Hlen.
  revert Hw. unfold DataBuffer_Write, DataBuffer_Read.
  case_bool_decide as Hb; [|done]. intros [= <-].
  rewrite bool_decide_eq_true_2 by lia. apply (f_equal Done).
  rewrite drop_app_length' by (rewrite length_take; lia).
  rewrite take_app_le by (rewrite length_take; lia).
  by rewrite take_take, Nat.min_id.
Qed.

Lemma DataBuffer_Read_ahead_of_write (buf : list Z) pos data n buf' pos0 n0 :
  DataBuffer_Write buf pos data n = Done buf' →
  pos0 + n0 ≤ pos →
  DataBuffer_Read buf' pos0 n0 = DataBuffer_Read buf pos0 n0.
Proof.
  intros Hw Hle. pose proof (DataBuffer_Write_length _ _ _ _ _ Hw) as Hlen.
  revert Hw. unfold DataBuffer_Write, DataBuffer_Read.
  case_bool_decide as Hb; [|done]. intros [= Hbuf]. rewrite Hlen.
  case_bool_decide as Hb0; [|done]. subst buf'. apply (f_equal Done).
  rewrite drop_app_le by (rewrite length_take; lia).
  rewrite take_app_le by (rewrite length_drop, length_take; lia).
  rewrite !take_drop_commute, take_take. do 2 f_equal. lia.
Qed.

Lemma SetAttributeValue_Done a i value a' :
  SetAttributeValue a i value = Done a' →
  ∃ buf buf', attribute_buffer_ a = Some buf
    ∧ DataBuffer_Write buf (i * byte_stride a) value (byte_stride a)
      = Done buf'
    ∧ a' = {| descriptor := descriptor a;
              attribute_buffer_ := Some buf';
              indices_map_ := indices_map_ a;
              num_unique_entries_ := num_unique_entries_ a;
              identity_mapping_ := identity_mapping_ a |}.
Proof.
  unfold SetAttributeValue, buffer.
  destruct (attribute_buffer_ a) as [buf|]; [|done].
  destruct (DataBuffer_Write _ _ _ _) as [buf'| |] eqn:Hw; cbn; [|done..].
  intros [= <-]. eauto.
Qed.

(** X9. A returned [SetAttributeValue(i, value)] touches nothing but the
    record of [i]: mapping table, mode, count and descriptor are as before,
    the buffer has the same size, and every byte before
    [i * byte_stride] or from [(i + 1) * byte_stride] on is unchanged. *)
Theorem SetAttributeValue_frame a i value a' :
  SetAttributeValue a i value = Done a' →
  indices_map_ a' = indices_map_ a
  ∧ identity_mapping_ a' = identity_mapping_ a
  ∧ num_unique_entries_ a' = num_unique_entries_ a
  ∧ descriptor a' = descriptor a
  ∧ ∃ buf buf', attribute_buffer_ a = Some buf
      ∧ attribute_buffer_ a' = Some buf'
      ∧ length buf' = length buf
      ∧ ∀ k : nat,
          Z.of_nat k < i * byte_stride a
          ∨ i * byte_stride a + byte_stride a ≤ Z.of_nat k →
          buf' !! k = buf !! k.
Proof.
  intros Hset. apply SetAttributeValue_Done in Hset
    as (buf & buf' & Hbuf & Hw & ->). cbn.
  do 4 (split; [done|]). exists buf, buf'.
  split; [done|]. split; [done|].
  split; [by eapply DataBuffer_Write_length|].
  revert Hw. unfold DataBuffer_Write.
  case_bool_decide as Hb; [|done]. intros [= <-] k Hk.
  destruct Hk as [Hk|Hk].
  - rewrite lookup_app_l by (rewrite length_take; lia).
    apply lookup_take_lt. lia.
  - rewrite lookup_app_r by (rewrite length_take; lia).
    rewrite lookup_app_r by (rewrite !length_take; lia).
    rewrite lookup_drop, !length_take. f_equal. lia.
Qed.

(** X10. What [SetAttributeValue] writes, the reads return: after a returned
    [SetAttributeValue(i, value)] the value at index [i], and so the mapped
    value of every point mapped to [i], is the first [byte_stride] bytes of
    [value]; the value at any other index, and so the mapped value of any
    point mapped elsewhere, is what it was. *)
Theorem SetAttributeValue_read_back a i value a' :
  SetAttributeValue a i value = Done a' →
  let written := take (Z.to_nat (byte_stride a)) value in
  GetValue a' i = Done written
  ∧ (∀ j, j ≠ i → GetValue a' j = GetValue a j)
  ∧ (∀ p, mapped_index a p = Done i → GetMappedValue a' p = Done written)
  ∧ (∀ p j, mapped_index a p = Done j → j ≠ i →
       GetMappedValue a' p = GetMappedValue a p).
Proof.
  intros Hset written. apply SetAttributeValue_Done in Hset
    as (buf & buf' & Hbuf & Hw & ->).
  assert (0 ≤ byte_stride a) as Hstride.
  { revert Hw. unfold DataBuffer_Write. case_bool_decide; [lia|done]. }
  assert (∀ j, GetValue
                 {| descriptor := descriptor a;
                    attribute_buffer_ := Some buf';
                    indices_map_ := indices_map_ a;
                    num_unique_entries_ := num_unique_entries_ a;
                    identity_mapping_ := identity_mapping_ a |} j
               = DataBuffer_Read buf' (j * byte_stride a) (byte_stride a))
    as Hget by done.
  assert (∀ j, GetValue a j
               = DataBuffer_Read buf (j * byte_stride a) (byte_stride a))
    as Hget0 by (intros j; unfold GetValue, buffer; by rewrite Hbuf).
  assert (∀ j, j ≠ i →
            DataBuffer_Read buf' (j * byte_stride a) (byte_stride a)
            = DataBuffer_Read buf (j * byte_stride a) (byte_stride a))
    as Hother.
  { intros j Hj. destruct (decide (j < i)).
    - eapply DataBuffer_Read_ahead_of_write; [done|nia].
    - eapply DataBuffer_Read_after_write; [done|nia]. }
  split; [|split; [|split]].
  - rewrite Hget. by eapply DataBuffer_Read_written_prefix.
  - intros j Hj. rewrite Hget, Hget0. by apply Hother.
  - intros p Hp. unfold GetMappedValue.
    change (mapped_index _ p) with (mapped_index a p). rewrite Hp.
    unfold mbind, Outcome_bind.
    rewrite Hget. by eapply DataBuffer_Read_written_prefix.
  - intros p j Hp Hj. unfold GetMappedValue.
    change (mapped_index _ p) with (mapped_index a p). rewrite Hp.
    unfold mbind, Outcome_bind.
    rewrite Hget, Hget0. by apply Hother.
Qed.

(** *** Count and reads *)

(** X11. [Resize] is bookkeeping only: the count read back by [size()] is
    the argument reduced modulo the range of the count's type, so it always
    lies in that range; a second [Resize] replaces the first; and no
    [mapped_index] or [GetMappedValue] result changes, even when the count is
    set below an index in use. *)
Theorem Resize_bookkeeping a n m p :
  size (Resize a n) = n mod 2 ^ value_type_bits
  ∧ 0 ≤ size (Resize a n) < 2 ^ value_type_bits
  ∧ Resize (Resize a n) m = Resize a m
  ∧ mapped_index (Resize a n) p = mapped_index a p
  ∧ GetMappedValue (Resize a n) p = GetMappedValue a p.
Proof.
  assert (0 < 2 ^ value_type_bits) as Hpos.
  { pose proof value_type_fits_size_t. apply Z.pow_pos_nonneg; lia. }
  assert (size (Resize a n) = n mod 2 ^ value_type_bits) as Hsize.
  { unfold size, Resize, to_value_type. cbn.
    apply to_size_t_small, value_type_range_in_size_t.
    by apply Z.mod_pos_bound. }
  split; [done|]. split; [rewrite Hsize; by apply Z.mod_pos_bound|].
  by repeat split.
Qed.

(** X12. In explicit mode [mapped_index] is defined exactly on the table:
    it returns [v] for a point whose table entry is [v], is undefined
    behaviour for every other point, and never aborts. *)
Theorem mapped_index_explicit_domain a p :
  identity_mapping_ a = false →
  (∀ v, mapped_index a p = Done v
        ↔ 0 ≤ p ∧ indices_map_ a !! Z.to_nat p = Some v)
  ∧ (mapped_index a p = Undefined
     ↔ ¬ (0 ≤ p < Z.of_nat (length (indices_map_ a))))
  ∧ mapped_index a p ≠ Fatal.
Proof.
  intros Hex. unfold mapped_index. rewrite Hex.
  split; [intros v; apply vector_at_Done|].
  unfold vector_at. case_bool_decide as Hp.
  - destruct (indices_map_ a !! Z.to_nat p) as [v|] eqn:Hv.
    + apply lookup_lt_Some in Hv. split; [|done]. split; [done|lia].
    + apply lookup_ge_None in Hv. split; [|done]. split; [lia|done].
  - split; [|done]. split; [lia|done].
Qed.

(** *** What the fingerprint keeps *)

(** X13. With hash utilities that do not collide, two attributes that both
    own a buffer and get the same hash have the same buffer bytes, the same
    mode flag, the same unique entry count, the same table length and the
    same first [size()] bytes of table data: whatever else the hash fails to
    tell apart, it is not these. *)
Theorem PointAttributeHasher_collision_free_part a b bufa bufb :
  (∀ x x' h h', HashCombine x h = HashCombine x' h' → x = x' ∧ h = h') →
  (∀ l l', FingerprintBytes l = FingerprintBytes l' → l = l') →
  attribute_buffer_ a = Some bufa →
  attribute_buffer_ b = Some bufb →
  PointAttributeHasher a = PointAttributeHasher b →
  bufa = bufb
  ∧ identity_mapping_ a = identity_mapping_ b
  ∧ num_unique_entries_ a = num_unique_entries_ b
  ∧ length (indices_map_ a) = length (indices_map_ b)
  ∧ take (length (indices_map_ a)) (vector_data (indices_map_ a))
    = take (length (indices_map_ b)) (vector_data (indices_map_ b))
  ∧ GeometryAttributeHasher (descriptor a)
    = GeometryAttributeHasher (descriptor b).
Proof.
  intros Hpair Hfp Ha Hb. unfold PointAttributeHasher.
  rewrite Ha, Hb. cbn zeta. rewrite !buffer_fully_hashed.
  intros Hhash. apply Hpair in Hhash as [[= Hbuf%Hfp] Htable].
  split; [done|].
  assert (∀ t : list Z, FingerprintString (vector_data t) (vector_size t)
            = FingerprintBytes (take (length t) (vector_data t))) as Hfs.
  { intros t. unfold FingerprintString, vector_size. by rewrite Nat2Z.id. }
  rewrite !Hfs in Htable.
  assert (∀ x y h h',
            HashCombine (HashSizeT x)
              (HashCombine (HashValueType y)
                 (HashCombine (HashBool (identity_mapping_ a)) h))
            = HashCombine (HashSizeT (vector_size (indices_map_ b)))
                (HashCombine (HashValueType (num_unique_entries_ b))
                   (HashCombine (HashBool (identity_mapping_ b)) h')) →
            x = vector_size (indices_map_ b)
            ∧ y = num_unique_entries_ b
            ∧ identity_mapping_ a = identity_mapping_ b ∧ h = h') as Hcore.
  { intros x y h h' Heq.
    apply Hpair in Heq as [[= ->] Heq].
    apply Hpair in Heq as [[= ->] Heq].
    apply Hpair in Heq as [[= ->] ->]. done. }
  revert Htable.
  case_bool_decide as Hla; case_bool_decide as Hlb; intros Htable.
  - apply Hpair in Htable as [[= Hpre%Hfp] Hrest].
    apply Hcore in Hrest as (Hlen & Hnum & Hid & Hbase).
    unfold vector_size in Hlen. repeat split; try done. lia.
  - apply Hpair in Htable as [[=] _].
  - symmetry in Htable. apply Hpair in Htable as [[=] _].
  - apply Hcore in Htable as (Hlen & Hnum & Hid & Hbase).
    unfold vector_size in Hlen, Hla, Hlb.
    assert (length (indices_map_ a) = 0%nat) as Ha0 by lia.
    assert (length (indices_map_ b) = 0%nat) as Hb0 by lia.
    rewrite Ha0, Hb0. repeat split; done.
Qed.

End Coverage.

(** ** The properties at work on the concrete platform *)
Section Concrete.
#[local] Existing Instance lp64.
#[local] Existing Instance sample_hashes.



(** The spec's failure scenario: a [float32]×3 source is refused by a
    [uint8]×2 destination, which keeps its count and its mapping. *)
Lemma DeduplicateValues_failure_witness :
  ∃ this', DeduplicateValues uint8x2_destination float32x3_source 0
           = Done (-1, this')
    ∧ this' = uint8x2_destination
    ∧ num_unique_entries_ this' = 2
    ∧ indices_map_ this' = [1; 0; 1]
    ∧ identity_mapping_ this' = false
    ∧ attribute_buffer_ this' = Some [9; 9; 8; 8].
Proof.
  apply (DeduplicateValues_failure uint8x2_destination float32x3_source 0).
  right. left. cbn. discriminate.
Defined.

(** Two attributes whose tables differ in their second entry hash alike. *)
Lemma PointAttributeHasher_skips_table_tail_witness :
  PointAttributeHasher (explicit_pair 2)
  = PointAttributeHasher (explicit_pair 1).
Proof.
  apply (PointAttributeHasher_skips_table_tail (explicit_pair 1) 1 2).
  cbn. lia.
Defined.

(** The same collision for any hash utilities whatever: the two tables
    agree on the two bytes that are fingerprinted. *)
Example table_tail_collision (hashes : @HashUtils lp64) :
  @PointAttributeHasher lp64 hashes (explicit_pair 2)
  = @PointAttributeHasher lp64 hashes (explicit_pair 1).
Proof. reflexivity. Qed.

(** Against C4 as stated: a table that held assigned entries keeps them
    across [SetExplicitMapping], so not every entry is the sentinel. *)
Lemma SetExplicitMapping_keeps_assigned_entries :
  indices_map_ (SetExplicitMapping (explicit_pair 1) 3)
  = [0; 1; kInvalidAttributeValueIndex]
  ∧ ¬ (∀ (i : nat) v,
         indices_map_ (SetExplicitMapping (explicit_pair 1) 3) !! i = Some v →
         v = kInvalidAttributeValueIndex).
Proof.
  split; [reflexivity|].
  intros Hall. specialize (Hall 1%nat 1 eq_refl). discriminate Hall.
Qed.

Lemma SetExplicitMapping_table_witness :
  let a' := SetExplicitMapping (explicit_pair 1) 3 in
  identity_mapping_ a' = false
  ∧ Z.of_nat (length (indices_map_ a')) = 3
  ∧ indices_map_ a' !! 1%nat = Some 1
  ∧ indices_map_ a' !! 2%nat = Some kInvalidAttributeValueIndex
  ∧ indices_map_ (SetExplicitMapping scenario 2)
    = [kInvalidAttributeValueIndex; kInvalidAttributeValueIndex].
Proof.
  destruct (SetExplicitMapping_table (explicit_pair 1) 3 ltac:(cbn; lia))
    as (Hmode & Hlen & Hold & Hnew & _).
  destruct (SetExplicitMapping_table scenario 2 ltac:(cbn; lia))
    as (_ & _ & _ & _ & Hfresh & _).
  cbn zeta. split; [exact Hmode|]. split; [exact Hlen|].
  split; [exact (Hold 1%nat ltac:(cbn; lia) ltac:(lia))|].
  split; [exact (Hnew 2%nat ltac:(cbn; lia) ltac:(lia))|].
  exact (Hfresh eq_refl).
Defined.


Lemma mapped_index_spec_witness :
  mapped_index scenario 4 = Done 4
  ∧ mapped_index (explicit_pair 2) 1 = Done 2
  ∧ mapped_index (Reset (explicit_pair 2) 7) 5 = Done 5.
Proof.
  destruct (mapped_index_spec scenario 4) as (Hid & _ & _).
  destruct (mapped_index_spec (explicit_pair 2) 1) as (_ & Hex & _).
  destruct (mapped_index_spec (explicit_pair 2) 5) as (_ & _ & Hreset).
  split; [exact (Hid eq_refl)|]. split.
  - destruct (Hex eq_refl ltac:(cbn; lia)) as (v & Hv & ->).
    change (Some 2 = Some v) in Hv. congruence.
  - exact (proj2 (Hreset 7)).
Defined.

(** A state reached by construction, [Reset], a switch to explicit mode, an
    entry assignment and a switch back: the invariant holds there. *)
Lemma mapping_invariant_preserved_witness :
  mapping_invariant
    (SetIdentityMapping (SetExplicitMapping (Reset (construct uint8x3 false) 4) 4))
  ∧ mapping_invariant (Reset (explicit_pair 1) 2).
Proof.
  destruct mapping_invariant_preserved as (Hnew & Hstep & _).
  split.
  - apply (Hstep OpSetIdentityMapping
                 (SetExplicitMapping (Reset (construct uint8x3 false) 4) 4));
      [|reflexivity].
    apply (Hstep (OpSetExplicitMapping 4) (Reset (construct uint8x3 false) 4));
      [|reflexivity].
    apply (Hstep (OpReset 4) (construct uint8x3 false)); [|reflexivity].
    apply Hnew.
  - apply (Hstep (OpReset 2) (explicit_pair 1)); [|reflexivity].
    intros Hid. discriminate Hid.
Defined.



(** Two attributes that reached the same state along different calls hash
    alike. *)
Lemma PointAttributeHasher_deterministic_witness :
  PointAttributeHasher (SetExplicitMapping (Resize scenario 3) 1)
  = PointAttributeHasher
      (Resize (with_indices_map (SetExplicitMapping scenario 4)
                                [kInvalidAttributeValueIndex]) 3).
Proof.
  apply PointAttributeHasher_deterministic; reflexivity.
Defined.

Lemma SetPointMapEntry_spec_witness :
  SetPointMapEntry scenario 1 0 = Fatal
  ∧ ∃ a', SetPointMapEntry (explicit_pair 1) 1 2 = Done a'
      ∧ indices_map_ a' = [0; 2]
      ∧ num_unique_entries_ a' = 3
      ∧ attribute_buffer_ a' = attribute_buffer_ (explicit_pair 1).
Proof.
  destruct (SetPointMapEntry_spec scenario 1 0) as [Hfatal _].
  destruct (SetPointMapEntry_spec (explicit_pair 1) 1 2) as [_ Hset].
  split; [exact (Hfatal eq_refl eq_refl)|].
  destruct (Hset eq_refl ltac:(cbn; lia))
    as (a' & Hdone & _ & _ & _ & Hnum & Hbuf & _).
  exists a'. split; [exact Hdone|]. split; [|by split].
  assert (SetPointMapEntry (explicit_pair 1) 1 2 = Done (explicit_pair 2))
    as Hrun by reflexivity.
  rewrite Hrun in Hdone. by injection Hdone as <-.
Defined.

(** With an explicit mapping the in-place order is not safe: on [permuted],
    point 0 moves value 3 into slot 0 before point 1 has read slot 0, and the
    in-place run finds two unique values where the staged run finds three. *)
Example in_place_unsafe_with_explicit_mapping :
  DeduplicateSelf_in_place permuted 0
  = Done (2, {| descriptor := descriptor permuted;
                attribute_buffer_ := Some [3; 2; 3];
                indices_map_ := [0; 0; 1];
                num_unique_entries_ := 2;
                identity_mapping_ := false |})
  ∧ DeduplicateValues permuted permuted 0
    = Done (3, {| descriptor := descriptor permuted;
                  attribute_buffer_ := Some [3; 1; 2];
                  indices_map_ := [0; 1; 2];
                  num_unique_entries_ := 3;
                  identity_mapping_ := false |}).
Proof. split; reflexivity. Qed.

(** The same on the store: with [permuted] at address 0 and [in_att] that
    very object, the in-place call and the staged call observe differently. *)
Example in_place_at_aliasing_matters :
  dedup_observation 0
    (DeduplicateValues_in_place_at {[0%nat := permuted]} 0 0 0)
  = Done (2, Some (2, [0; 0; 1]))
  ∧ dedup_observation 0 (DeduplicateValues_at {[0%nat := permuted]} 0 0 0)
    = Done (3, Some (3, [0; 1; 2])).
Proof.
  rewrite (DeduplicateValues_in_place_at_self _ _ _ permuted) by reflexivity.
  rewrite (DeduplicateValues_at_staged _ _ _ _ permuted permuted)
    by reflexivity.
  destruct in_place_unsafe_with_explicit_mapping as [-> ->].
  split; reflexivity.
Qed.
End Concrete.

(** ** The further properties on the concrete platform *)
Section ConcreteCoverage.
#[local] Existing Instance lp64.
#[local] Existing Instance sample_hashes.

Lemma SetIdentityMapping_discards_mapping_witness :
  SetIdentityMapping (explicit_pair 2) = SetIdentityMapping (explicit_pair 1)
  ∧ SetIdentityMapping (SetIdentityMapping scenario)
    = SetIdentityMapping scenario
  ∧ mapped_index (SetIdentityMapping scenario) 1 = Done 1.
Proof.
  destruct (SetIdentityMapping_discards_mapping (explicit_pair 1) 5)
    as (Hsame & _).
  destruct (SetIdentityMapping_discards_mapping scenario 5)
    as (_ & _ & Htwice & _ & Hid & _).
  split; [exact (Hsame 1 2 (explicit_pair 2) eq_refl)|].
  split; [exact Htwice|exact (Hid 1)].
Defined.

Lemma fresh_explicit_mapping_reads_sentinel_witness :
  indices_map_ (SetExplicitMapping (SetIdentityMapping (explicit_pair 1)) 2)
  = [kInvalidAttributeValueIndex; kInvalidAttributeValueIndex]
  ∧ mapped_index (SetExplicitMapping (SetIdentityMapping (explicit_pair 1)) 2) 1
    = Done kInvalidAttributeValueIndex.
Proof.
  destruct (fresh_explicit_mapping_reads_sentinel (explicit_pair 1) 2 1
              ltac:(cbn; lia)) as (Htable & Hin & _).
  split; [exact Htable|apply Hin; lia].
Defined.

Lemma SetExplicitMapping_shrinks_witness :
  indices_map_ (SetExplicitMapping permuted 2) = [2; 0].
Proof.
  apply (SetExplicitMapping_shrinks permuted 2); cbn; lia.
Defined.

Lemma SetExplicitMapping_twice_witness :
  SetExplicitMapping (SetExplicitMapping permuted 5) 2
  = SetExplicitMapping permuted 2.
Proof.
  apply (SetExplicitMapping_twice permuted 5 2); cbn; lia.
Defined.

Lemma SetPointMapEntry_mapped_index_witness :
  mapped_index (explicit_pair 2) 1 = Done 2
  ∧ mapped_index (explicit_pair 2) 0 = mapped_index (explicit_pair 1) 0
  ∧ GetMappedValue (explicit_pair 2) 1 = GetValue (explicit_pair 1) 2.
Proof.
  destruct (SetPointMapEntry_mapped_index
              (explicit_pair 1) 1 2 (explicit_pair 2) eq_refl eq_refl)
    as (Hp & Hother & Hval).
  split; [exact Hp|]. split; [apply Hother; lia|exact Hval].
Defined.

Lemma SetPointMapEntry_bounds_witness :
  SetPointMapEntry (explicit_pair 1) 2 0 = Undefined
  ∧ SetPointMapEntry (explicit_pair 1) (-1) 0 = Undefined
  ∧ SetPointMapEntry scenario 0 0 = Fatal.
Proof.
  destruct (SetPointMapEntry_bounds (explicit_pair 1) 2 0) as (_ & Hout & _).
  destruct (SetPointMapEntry_bounds (explicit_pair 1) (-1) 0)
    as (_ & Hneg & _).
  destruct (SetPointMapEntry_bounds scenario 0 0) as (_ & _ & Hid).
  split; [apply Hout; [reflexivity|cbn; lia]|].
  split; [apply Hneg; [reflexivity|cbn; lia]|].
  exact (Hid eq_refl eq_refl).
Defined.

Lemma SetPointMapEntry_overwrite_commute_witness :
  (a1 ← SetPointMapEntry permuted 0 7; SetPointMapEntry a1 2 9)
  = (a1 ← SetPointMapEntry permuted 2 9; SetPointMapEntry a1 0 7).
Proof.
  apply (SetPointMapEntry_overwrite_commute permuted 0 2 7 9). lia.
Defined.

Lemma assign_entries_fills_witness :
  ∃ a', assign_entries (SetExplicitMapping permuted 4) 0 [1; 1; 0; 2] = Done a'
    ∧ indices_map_ a' = [1; 1; 0; 2]
    ∧ mapped_index a' 3 = Done 2
    ∧ mapped_index a' 1 ≠ Done kInvalidAttributeValueIndex.
Proof.
  destruct (assign_entries_fills permuted 4 [1; 1; 0; 2]
              ltac:(cbn; lia) eq_refl)
    as (a' & Hrun & Htable & _ & _ & _ & Hread & Hfull).
  exists a'. split; [exact Hrun|]. split; [exact Htable|].
  split; [exact (Hread 3%nat 2 eq_refl)|].
  apply Hfull. apply (bool_decide_unpack _). by vm_compute.
Defined.

Lemma SetAttributeValue_frame_witness :
  ∃ a', SetAttributeValue scenario 1 [7; 8; 9] = Done a'
    ∧ indices_map_ a' = []
    ∧ num_unique_entries_ a' = 5
    ∧ ∃ buf', attribute_buffer_ a' = Some buf'
        ∧ length buf' = 15%nat
        ∧ buf' !! 2%nat = Some 1 ∧ buf' !! 6%nat = Some 1.
Proof.
  eexists. split; [reflexivity|].
  destruct (SetAttributeValue_frame scenario 1 [7; 8; 9] _ eq_refl)
    as (Hmap & _ & Hnum & _ & buf & buf' & Hbuf & Hbuf' & Hlen & Hrest).
  split; [exact Hmap|]. split; [exact Hnum|].
  exists buf'. split; [exact Hbuf'|].
  injection Hbuf as <-.
  split; [exact Hlen|].
  split; [apply (Hrest 2%nat); left; reflexivity
         |apply (Hrest 6%nat); right; by compute].
Defined.

Lemma SetAttributeValue_read_back_witness :
  ∃ a', SetAttributeValue (explicit_pair 0) 0 [7; 8; 9; 10] = Done a'
    ∧ GetValue a' 0 = Done [7; 8; 9]
    ∧ GetMappedValue a' 1 = Done [7; 8; 9]
    ∧ GetValue a' 1 = Done [2; 2; 2].
Proof.
  eexists. split; [reflexivity|].
  destruct (SetAttributeValue_read_back (explicit_pair 0) 0 [7; 8; 9; 10] _
              eq_refl) as (Hsame & Hother & Hmapped & _).
  split; [exact Hsame|]. split; [exact (Hmapped 1 eq_refl)|].
  rewrite (Hother 1) by lia. reflexivity.
Defined.

Lemma mapped_index_explicit_domain_witness :
  (mapped_index permuted 1 = Done 0
   ↔ 0 ≤ 1 ∧ indices_map_ permuted !! Z.to_nat 1 = Some 0)
  ∧ mapped_index permuted 3 = Undefined.
Proof.
  destruct (mapped_index_explicit_domain permuted 1 eq_refl) as (Hdone & _).
  destruct (mapped_index_explicit_domain permuted 3 eq_refl)
    as (_ & Hundef & _).
  split; [exact (Hdone 0)|]. apply Hundef. cbn. lia.
Defined.

Lemma ideal_HashCombine_inj x x' h h' :
  @HashCombine lp64 ideal_hashes x h = @HashCombine lp64 ideal_hashes x' h' →
  x = x' ∧ h = h'.
Proof.
  cbn. intros [= Henc]. apply (inj encode) in Henc. by injection Henc.
Qed.

Lemma ideal_FingerprintBytes_inj l l' :
  @FingerprintBytes lp64 ideal_hashes l = @FingerprintBytes lp64 ideal_hashes l' →
  l = l'.
Proof. cbn. intros [= Henc]. by apply (inj encode) in Henc. Qed.

(** The two attributes of the table-tail collision, under utilities that do
    not collide: they agree on everything the theorem lists, and differ
    only beyond the hashed bytes of the table. *)
Lemma PointAttributeHasher_collision_free_part_witness :
  attribute_buffer_ (explicit_pair 2) = attribute_buffer_ (explicit_pair 1)
  ∧ num_unique_entries_ (explicit_pair 2) = num_unique_entries_ (explicit_pair 1)
  ∧ length (indices_map_ (explicit_pair 2))
    = length (indices_map_ (explicit_pair 1)).
Proof.
  destruct (@PointAttributeHasher_collision_free_part lp64 ideal_hashes
              (explicit_pair 2) (explicit_pair 1) _ _
              ideal_HashCombine_inj ideal_FingerprintBytes_inj
              eq_refl eq_refl (table_tail_collision ideal_hashes))
    as (Hbuf & _ & Hnum & Hlen & _).
  split; [exact (f_equal Some Hbuf)|]. split; [exact Hnum|exact Hlen].
Defined.

End ConcreteCoverage.
